(** * illumioapi: label groups and the request orchestrator

    A shallow embedding of [labelgroups.go] (label-group collection,
    lookup table and expansion) and of the request helpers that follow it
    in the same source ([httpReq], [cleanFQDN]).

    Go strings are byte sequences and are modelled by [string]; Go maps by
    stdpp's [gmap]; a pointer to a slice ([*[]T]) by [option (list T)];
    Go's [error] by [option string] ([None] is [nil]).  Loops whose
    termination is not evident from the code take a bound on their number
    of iterations and return [None] when it is reached; calls that leave the
    process (collection requests, HTTP exchanges, pauses) run in a state
    monad over an abstract world and record an event each. *)

From Stdlib Require Import ZArith String Ascii List Lia Bool.
From stdpp Require Import gmap strings list fin_maps.

(** ** Data model *)

(** [Label] is declared in another file of the package; the code of this
    file only reads its [Href] field. *)
Module Label.
Record t : Type := mk { Href : string }.
End Label.

Module SubGroups.
Record t : Type := mk { Href : string; Name : string }.
End SubGroups.

Module Usage.
Record t : Type := mk {
  LabelGroup : bool;
  Rule : bool;
  Ruleset : bool;
  StaticPolicyScopes : bool }.
End Usage.

Module LabelGroup.
Record t : Type := mk {
  Href : string;
  Name : string;
  Description : option string;
  Key : string;
  Labels : option (list Label.t);
  SubGroups : option (list SubGroups.t);
  Usage : option Usage.t;
  ExternalDataReference : option string;
  ExternalDataSet : option string }.

(** The zero value [LabelGroup{}], which a Go map read returns for a
    missing key. *)
Definition zero : t :=
  mk "" "" None "" None None None None None.
End LabelGroup.

(** [PtrToVal] (a generic helper of the package): the pointee, or the zero
    value of the type for a nil pointer. *)
Definition PtrToVal {T : Type} (zero : T) (ptr : option T) : T :=
  match ptr with
  | Some v => v
  | None => zero
  end.

(** The fields of [PCE] that this file reads or writes. *)
Module PCE.
Record t : Type := mk {
  FQDN : string;
  LabelGroups : gmap string LabelGroup.t;
  LabelGroupsSlice : list LabelGroup.t }.

Definition set_FQDN (p : t) (v : string) : t :=
  mk v (LabelGroups p) (LabelGroupsSlice p).
Definition set_LabelGroups (p : t) (v : gmap string LabelGroup.t) : t :=
  mk (FQDN p) v (LabelGroupsSlice p).
Definition set_LabelGroupsSlice (p : t) (v : list LabelGroup.t) : t :=
  mk (FQDN p) (LabelGroups p) v.
End PCE.

(** [p.LabelGroups[href]]: a Go map read, total. *)
Definition lookupLabelGroup (p : PCE.t) (href : string) : LabelGroup.t :=
  default LabelGroup.zero (PCE.LabelGroups p !! href).

(** ** Label-group expansion *)

(** [expandLabelGroup]: the hrefs of the labels and of the subgroups that
    the group stored under [href] lists directly. *)
Definition expandLabelGroup (p : PCE.t) (href : string)
  : list string * list string :=
  let labelHrefs :=
    foldl (fun acc l => acc ++ [Label.Href l]) []
          (PtrToVal [] (LabelGroup.Labels (lookupLabelGroup p href))) in
  let moreSGs :=
    foldl (fun acc sg => acc ++ [SubGroups.Href sg]) []
          (PtrToVal [] (LabelGroup.SubGroups (lookupLabelGroup p href))) in
  (labelHrefs, moreSGs).

(** The body of [for _, newSG := range moreSGs] (lines 94-98).  Go evaluates
    the range expression once, so the loop walks the slice [moreSGs] held
    when it started, while every iteration assigns a new value to the
    variable [moreSGs]. *)
Definition expandRound (p : PCE.t) (snapshot : list string)
    (st : list string * list string) : list string * list string :=
  foldl (fun st newSG =>
           let '(l, moreSGs) := expandLabelGroup p newSG in
           (st.1 ++ l, moreSGs))
        st snapshot.

(** [for len(moreSGs) > 0 { ... }] (lines 93-99).  [fuel] bounds the number
    of iterations; [None] means the bound was reached with the loop still
    running. *)
Fixpoint expandMore (fuel : nat) (p : PCE.t)
    (labelHrefs moreSGs : list string) : option (list string) :=
  match moreSGs with
  | [] => Some labelHrefs
  | _ :: _ =>
      match fuel with
      | O => None
      | S fuel' =>
          let '(labelHrefs', moreSGs') :=
            expandRound p moreSGs (labelHrefs, moreSGs) in
          expandMore fuel' p labelHrefs' moreSGs'
      end
  end.

(** The loop over the subgroups of the original group (lines 87-100). *)
Fixpoint expandSubGroups (fuel : nat) (p : PCE.t)
    (sgs : list SubGroups.t) (labelHrefs : list string)
  : option (list string) :=
  match sgs with
  | [] => Some labelHrefs
  | sg :: rest =>
      let '(l, moreSGs) := expandLabelGroup p (SubGroups.Href sg) in
      match expandMore fuel p (labelHrefs ++ l) moreSGs with
      | None => None
      | Some labelHrefs' => expandSubGroups fuel p rest labelHrefs'
      end
  end.

(** De-duplication through a [map[string]bool] (lines 103-111).  Go leaves
    the iteration order of a map unspecified; the model enumerates the keys
    in [gmap]'s order, and no statement below depends on that order. *)
Definition dedupe (labelHrefs : list string) : list string :=
  let labelGroupMap : gmap string bool :=
    foldl (fun m l => <[l := true]> m) ∅ labelHrefs in
  (map_to_list labelGroupMap).*1.

Definition ExpandLabelGroup (fuel : nat) (p : PCE.t) (href : string)
  : option (list string) :=
  let '(a, _) := expandLabelGroup p href in
  let labelHrefs := [] ++ a in
  match expandSubGroups fuel p
          (PtrToVal [] (LabelGroup.SubGroups (lookupLabelGroup p href)))
          labelHrefs with
  | None => None
  | Some labelHrefs' => Some (dedupe labelHrefs')
  end.

(** ** The outside world *)

(** Go's [error] interface: [None] is [nil], [Some msg] an error whose
    message is [msg] ([errors.New], [fmt.Errorf]). *)
Definition error : Type := option string.

(** [APIResponse].  The [Request] field (a pointer into [net/http]) is
    never read by this code and is left out. *)
Module APIResponse.
Record t : Type := mk {
  RespBody : string;
  StatusCode : Z;
  Header : list (string * list string);
  ReqBody : string;
  Warnings : list string }.

Definition zero : t := mk "" 0%Z [] "" [].
End APIResponse.

(** What the program does to the outside world, in order. *)
Inductive Event : Type :=
| EvGetCollection (endpoint : string) (async : bool)
                  (queryParameters : gmap string string)
| EvHttpSetup (action apiURL body : string) (async : bool)
              (headers : gmap string string)
| EvSleep (d : Z).

(** The network behind the calls.  [GetCollection] is a method of [*PCE]
    from another file of the package: it issues the request and decodes the
    answer into the slice it is handed, here always [&p.LabelGroupsSlice];
    as a method it may update its receiver, so it returns the PCE it leaves.
    [httpSetup] (lines 187-305) is one HTTP exchange over [net/http],
    including the asynchronous polling; it is taken as given, like the server
    it talks to.  [Sleep] is the passing of time.  A [Network] answers
    every call of [httpSetup]; the calls that do not return (a panic, a job
    that is never done) are those of [Wire.httpSetup] below, which embeds
    the lines themselves, and [WireReq.httpReq] runs [httpReq] over it. *)
Class Network : Type := {
  World : Type;
  GetCollection :
    PCE.t -> string -> bool -> gmap string string ->
    World -> (APIResponse.t * error * PCE.t) * World;
  httpSetup :
    string -> string -> string -> bool -> gmap string string ->
    World -> (APIResponse.t * error) * World;
  Sleep : Z -> World -> World }.

(** The part of [strings.ToLower] that goes through Go's Unicode tables:
    [strings.Map(unicode.ToLower, s)], used for strings with a byte
    outside ASCII. *)
Class UnicodeTables : Type := {
  MapToLower : string -> string }.

(** A state monad over the world and the trace of events. *)
Definition St `{Network} : Type := (World * list Event)%type.
Definition M `{Network} (A : Type) : Type := St -> A * St.

Definition ret `{Network} {A : Type} (a : A) : M A := fun st => (a, st).
Definition bind `{Network} {A B : Type} (c : M A) (k : A -> M B) : M B :=
  fun st => let '(a, st') := c st in k a st'.

Notation "x <~ c ; k" := (bind c (fun x => k))
  (at level 20, c at level 100, k at level 200, only parsing).
Notation "' pat <~ c ; k" := (bind c (fun x => match x with pat => k end))
  (at level 20, pat pattern, c at level 100, k at level 200, only parsing).

Definition doGetCollection `{Network} (p : PCE.t) (endpoint : string)
    (async : bool) (queryParameters : gmap string string)
  : M (APIResponse.t * error * PCE.t) :=
  fun st =>
    let '(r, w) := GetCollection p endpoint async queryParameters st.1 in
    (r, (w, st.2 ++ [EvGetCollection endpoint async queryParameters])).

Definition doHttpSetup `{Network} (action apiURL body : string) (async : bool)
    (headers : gmap string string) : M (APIResponse.t * error) :=
  fun st =>
    let '(r, w) := httpSetup action apiURL body async headers st.1 in
    (r, (w, st.2 ++ [EvHttpSetup action apiURL body async headers])).

Definition time_Second : Z := 1000000000.

Definition time_Sleep `{Network} (d : Z) : M unit :=
  fun st => (tt, (Sleep d st.1, st.2 ++ [EvSleep d])).

(** ** Go's [strings] functions used by the code *)

Definition byteVal (c : ascii) : Z := Z.of_N (N_of_ascii c).

(** [utf8.RuneSelf]: bytes below it are ASCII. *)
Definition utf8_RuneSelf : Z := 128.

Definition isUpperASCII (c : ascii) : bool :=
  (65 <=? byteVal c)%Z && (byteVal c <=? 90)%Z.

(** [c += 'a' - 'A'] for an upper-case ASCII letter. *)
Definition lowerByte (c : ascii) : ascii :=
  if isUpperASCII c then ascii_of_N (Z.to_N (byteVal c + 32)) else c.

Fixpoint isASCII (s : string) : bool :=
  match s with
  | EmptyString => true
  | String c s' => (byteVal c <? utf8_RuneSelf)%Z && isASCII s'
  end.

Fixpoint hasUpper (s : string) : bool :=
  match s with
  | EmptyString => false
  | String c s' => isUpperASCII c || hasUpper s'
  end.

Fixpoint mapBytes (f : ascii -> ascii) (s : string) : string :=
  match s with
  | EmptyString => EmptyString
  | String c s' => String (f c) (mapBytes f s')
  end.

(** [strings.ToLower]: ASCII-only strings are lowered byte by byte (and
    returned as they are when they hold no upper-case letter); any other
    string goes through the Unicode tables. *)
Definition strings_ToLower `{UnicodeTables} (s : string) : string :=
  if isASCII s then
    if negb (hasUpper s) then s else mapBytes lowerByte s
  else MapToLower s.

(** [s[a:b]] *)
Definition sliceStr (s : string) (a b : nat) : string :=
  String.substring a (b - a) s.

Definition strings_HasPrefix (s prefix : string) : bool :=
  (String.length prefix <=? String.length s)%nat
  && String.eqb (sliceStr s 0 (String.length prefix)) prefix.

Definition strings_HasSuffix (s suffix : string) : bool :=
  (String.length suffix <=? String.length s)%nat
  && String.eqb
       (sliceStr s (String.length s - String.length suffix) (String.length s))
       suffix.

Definition strings_TrimPrefix (s prefix : string) : string :=
  if strings_HasPrefix s prefix
  then sliceStr s (String.length prefix) (String.length s)
  else s.

Definition strings_TrimSuffix (s suffix : string) : string :=
  if strings_HasSuffix s suffix
  then sliceStr s 0 (String.length s - String.length suffix)
  else s.

(** ** [GetLabelGroups] *)

(** Lines 52-57: the lookup table built from the fetched slice, each group
    stored under its href, its name, and its key followed by its name. *)
Definition indexLabelGroups (slice : list LabelGroup.t)
  : gmap string LabelGroup.t :=
  foldl (fun m lg =>
           <[LabelGroup.Key lg +:+ LabelGroup.Name lg := lg]>
             (<[LabelGroup.Name lg := lg]>
                (<[LabelGroup.Href lg := lg]> m)))
        ∅ slice.

Definition GetLabelGroups `{Network} `{UnicodeTables} (p : PCE.t)
    (queryParameters : gmap string string) (pStatus : string)
  : M (PCE.t * APIResponse.t * error) :=
  let pStatus := strings_ToLower pStatus in
  if negb (String.eqb pStatus "active") && negb (String.eqb pStatus "draft")
  then ret (p, APIResponse.zero, Some "invalid pStatus")
  else
    '(api, err, p) <~
       doGetCollection p ("/sec_policy/" +:+ pStatus +:+ "/label_groups")
         false queryParameters ;
    '(p, api, err) <~
       (if (500 <=? Z.of_nat (length (PCE.LabelGroupsSlice p)))%Z
        then
          let p := PCE.set_LabelGroupsSlice p [] in
          '(api, err, p) <~
             doGetCollection p
               ("/sec_policy/" +:+ pStatus +:+ "/label_groups")
               true queryParameters ;
          ret (p, api, err)
        else ret (p, api, err)) ;
    let p := PCE.set_LabelGroups p
               (indexLabelGroups (PCE.LabelGroupsSlice p)) in
    ret (p, api, err).

(** ** [httpReq] *)

(** The loop [for api.StatusCode == 429 { ... }] (lines 383-393); [fuel]
    bounds its iterations and [None] means the bound was reached. *)
Fixpoint httpReqLoop `{Network} (fuel : nat)
    (action apiURL body : string) (async : bool)
    (headers : gmap string string)
    (api : APIResponse.t) (err : error) (retry : Z)
  : M (option (APIResponse.t * error)) :=
  if (APIResponse.StatusCode api =? 429)%Z then
    match fuel with
    | O => ret None
    | S fuel' =>
        if (retry >? 6)%Z then
          ret (Some (api,
                     Some "received 6 429 errors with 30 second pauses between attempts"))
        else
          let retry := (retry + 1)%Z in
          _ <~ time_Sleep (30 * time_Second) ;
          '(api, err) <~ doHttpSetup action apiURL body async headers ;
          httpReqLoop fuel' action apiURL body async headers api err retry
    end
  else ret (Some (api, err)).

Definition httpReq `{Network} (fuel : nat)
    (action apiURL body : string) (async : bool)
    (headers : gmap string string)
  : M (option (APIResponse.t * error)) :=
  '(api, err) <~ doHttpSetup action apiURL body async headers ;
  let retry := 0%Z in
  httpReqLoop fuel action apiURL body async headers api err retry.

(** ** [cleanFQDN] *)

Definition cleanFQDN (p : PCE.t) : PCE.t * string :=
  let p := PCE.set_FQDN p (strings_TrimSuffix (PCE.FQDN p) "/") in
  let p := PCE.set_FQDN p (strings_TrimPrefix (PCE.FQDN p) "https://") in
  (p, PCE.FQDN p).

(** ** Notions used by the statements *)

(** The label hrefs and the subgroup hrefs a group lists directly. *)
Definition labelHrefsOf (p : PCE.t) (g : string) : list string :=
  (expandLabelGroup p g).1.
Definition subGroupHrefsOf (p : PCE.t) (g : string) : list string :=
  (expandLabelGroup p g).2.

(** [reaches p g h]: [h] is [g] or a subgroup of [g] at any depth. *)
Inductive reaches (p : PCE.t) (g : string) : string -> Prop :=
| reaches_refl : reaches p g g
| reaches_step h k :
    reaches p g h -> k ∈ subGroupHrefsOf p h -> reaches p g k.

(** The subgroup references are acyclic: some rank decreases along every
    reference. *)
Definition acyclic (p : PCE.t) (rank : string -> nat) : Prop :=
  ∀ g sg, sg ∈ subGroupHrefsOf p g → (rank sg < rank g)%nat.

(** Every label collected so far belongs to a group reachable from [root]. *)
Definition sound (p : PCE.t) (root : string) (labelHrefs : list string) : Prop :=
  ∀ x, x ∈ labelHrefs → ∃ g, reaches p root g ∧ x ∈ labelHrefsOf p g.

Definition allReached (p : PCE.t) (root : string) (gs : list string) : Prop :=
  ∀ g, g ∈ gs → reaches p root g.

(** The error [httpReq] gives up with. *)
Definition rateLimitError : error :=
  Some "received 6 429 errors with 30 second pauses between attempts".

(** ** Example lookup tables *)

Definition group (href : string) (labels subgroups : list string)
  : LabelGroup.t :=
  LabelGroup.mk href href None ""
    (Some (Label.mk <$> labels))
    (Some ((fun h => SubGroups.mk h h) <$> subgroups))
    None None None.

(** Group A lists B as its subgroup and B lists A. *)
Definition cycleAB : PCE.t :=
  PCE.mk ""
    (<["A" := group "A" ["la"] ["B"]]>
       (<["B" := group "B" ["lb"] ["A"]]> ∅))
    [].

(** P lists C; C lists D and E; D lists F, which holds the label x. *)
Definition nested : PCE.t :=
  PCE.mk ""
    (<["P" := group "P" ["lp"] ["C"]]>
       (<["C" := group "C" ["lc"] ["D"; "E"]]>
          (<["D" := group "D" ["ld"] ["F"]]>
             (<["E" := group "E" ["le"] []]>
                (<["F" := group "F" ["x"] []]> ∅)))))
    [].

Definition nestedRank (g : string) : nat :=
  if String.eqb g "P" then 3
  else if String.eqb g "C" then 2
  else if String.eqb g "D" then 1
  else 0.

Definition leaf : PCE.t :=
  PCE.mk "" (<["L" := group "L" ["l1"; "l2"; "l1"] []]> ∅) [].

(** Reading a result of a call in the monad. *)
Definition resultOf `{Network} {A : Type} (r : A * St) : A := r.1.
Definition worldOf `{Network} {A : Type} (r : A * St) : World := r.2.1.
Definition traceOf `{Network} {A : Type} (r : A * St) : list Event := r.2.2.

Definition pceOf (r : PCE.t * APIResponse.t * error) : PCE.t := r.1.1.
Definition errOf (r : PCE.t * APIResponse.t * error) : error := r.2.

(** The pauses and the HTTP exchanges of a trace. *)
Definition sleepsOf (tr : list Event) : list Z :=
  omap (fun e => match e with EvSleep d => Some d | _ => None end) tr.
Definition exchangesOf (tr : list Event) : nat :=
  length (omap (fun e => match e with EvHttpSetup _ _ _ _ _ => Some e
                                 | _ => None end) tr).

(** [s] and [t] are the same string up to letter case, in the sense of Go's
    lower-casing. *)
Definition equalUpToCase `{UnicodeTables} (s t : string) : Prop :=
  strings_ToLower s = strings_ToLower t.

(** The same notion spelled out for ASCII strings: the strings have the
    same length and, position by position, the same byte or the two cases
    of one letter. *)
Definition sameLetter (c d : ascii) : Prop :=
  byteVal c = byteVal d
  ∨ ((65 <= byteVal c <= 90)%Z ∧ byteVal d = (byteVal c + 32)%Z)
  ∨ ((65 <= byteVal d <= 90)%Z ∧ byteVal c = (byteVal d + 32)%Z).

Fixpoint sameUpToCaseASCII (s t : string) : Prop :=
  match s, t with
  | EmptyString, EmptyString => True
  | String c s', String d t' => sameLetter c d ∧ sameUpToCaseASCII s' t'
  | _, _ => False
  end.

(** No group of the slice carries, as its name or as its key followed by its
    name, the href of a group with another href. *)
Definition hrefsNotShadowed (slice : list LabelGroup.t) : Prop :=
  ∀ g g', g ∈ slice → g' ∈ slice →
    LabelGroup.Name g' = LabelGroup.Href g
    ∨ LabelGroup.Key g' +:+ LabelGroup.Name g' = LabelGroup.Href g →
    LabelGroup.Href g' = LabelGroup.Href g.

(** ** Example networks *)

(** A server whose [n]-th HTTP exchange answers with status [codes n], and
    whose collection calls answer [sync] or [async] according to the flag;
    a collection answer without a slice leaves the target slice as it was
    (the call failed before decoding). *)
Definition scripted (codes : nat -> Z)
    (sync async : APIResponse.t * error * option (list LabelGroup.t))
  : Network :=
  {| World := nat;
     GetCollection := fun p _ isAsync _ w =>
       let '(api, err, got) := if isAsync then async else sync in
       ((api, err,
         PCE.set_LabelGroupsSlice p (default (PCE.LabelGroupsSlice p) got)),
        w);
     httpSetup := fun _ _ _ _ _ w =>
       let code := codes w in
       ((APIResponse.mk "" code [] "" [],
         if ((200 <=? code) && (code <? 300))%Z then None
         else Some "http status code"), S w);
     Sleep := fun _ w => w |}.

Definition ok200 : APIResponse.t := APIResponse.mk "[]" 200 [] "" [].

(** Every exchange is answered 429. *)
Definition always429 : Network :=
  scripted (fun _ => 429%Z) (ok200, None, None) (ok200, None, None).

(** Three answers 429, then 200. *)
Definition thrice429 : Network :=
  scripted (fun n => if (n <? 3)%nat then 429%Z else 200%Z)
           (ok200, None, None) (ok200, None, None).

(** The first collection call returns 500 groups; the asynchronous call that
    follows fails in transport. *)
Definition asyncFails : Network :=
  scripted (fun _ => 200%Z)
           (ok200, None, Some (replicate 500 (group "g" [] [])))
           (APIResponse.zero, Some "dial tcp: connection refused", None).

(** The collection holds a group whose name is the href of another one. *)
Definition shadowing : Network :=
  scripted (fun _ => 200%Z)
           (ok200, None,
            Some [LabelGroup.mk "/a" "first" None "" None None None None None;
                  LabelGroup.mk "/b" "/a" None "" None None None None None])
           (ok200, None, None).

(** A well-behaved collection of one group. *)
Definition oneGroup : Network :=
  scripted (fun _ => 200%Z)
           (ok200, None, Some [group "/a" ["l1"] []])
           (ok200, None, None).

(** Stand-in for the Unicode tables where only ASCII strings are lowered. *)
Definition noUnicode : UnicodeTables := {| MapToLower := fun s => s |}.

(** A PCE whose lookup table was filled by an earlier collection call. *)
Definition filled : PCE.t :=
  PCE.mk "pce.example.com:8443"
         (indexLabelGroups [group "/old" ["l0"] []])
         [group "/old" ["l0"] []].

(** ** Notions for the further properties *)

(** The value of the variable [moreSGs] after one pass of the loop of lines
    94-98 over [round]: the subgroups of the last group of the round. *)
Definition nextRound (p : PCE.t) (round : list string) : list string :=
  match last round with
  | Some g => subGroupHrefsOf p g
  | None => []
  end.

(** The three keys under which lines 54-56 store a group. *)
Definition keysOf (lg : LabelGroup.t) : list string :=
  [LabelGroup.Href lg; LabelGroup.Name lg;
   LabelGroup.Key lg +:+ LabelGroup.Name lg].

(** A root with two subgroups, one of which has two subgroups of its own. *)
Definition twoLevels : PCE.t :=
  PCE.mk ""
    (<["R" := group "R" ["lr"] ["S1"; "S2"]]>
       (<["S1" := group "S1" ["ls1"] ["G1"; "G2"]]>
          (<["S2" := group "S2" ["ls2"] []]>
             (<["G1" := group "G1" ["lg1"] []]>
                (<["G2" := group "G2" ["lg2"; "lr"] []]> ∅)))))
    [].

(** ** The transport under [httpSetup] and [asyncPoll]

    [httpSetup] and [asyncPoll] are methods of [*PCE]; [Conn.t] holds the
    fields of the PCE they read.  What [net/http], [net/url],
    [encoding/json] and the environment do is given by a [Transport];
    [strconv.Itoa], [strconv.Atoi] and the 64-bit arithmetic of
    [time.Duration] are written out.  The lines that only log are left out,
    except where evaluating their arguments can fail. *)

Inductive result (A : Type) : Type :=
| Ok (a : A)
| Err (msg : string).
Arguments Ok {A} a.
Arguments Err {A} msg.

Module Conn.
Record t : Type := mk {
  User : string;
  Key : string;
  Proxy : string;
  DisableTLSChecking : bool }.
End Conn.

(** A parsed URL: the code reads its [Host]; [Raw] is the text it was
    parsed from. *)
Module URL.
Record t : Type := mk { Host : string; Raw : string }.
End URL.

(** The calls made on a request's header, in order ([req.SetBasicAuth],
    [req.Header.Set]); how [net/http] folds them into one header map
    (canonical keys, the last [Set] of a key wins) is the library's. *)
Inductive HeaderOp : Type :=
| OpSetBasicAuth (user key : string)
| OpSet (key value : string).

(** The body handed to [http.NewRequest]: [nil], or the buffer
    [bytes.NewBuffer(body)] (the final request of the asynchronous path is
    handed the same buffer as the first). *)
Inductive ReqBody : Type :=
| BodyNil
| BodyBuffer (content : string).

Module Request.
Record t : Type := mk {
  Method : string;
  URL : URL.t;
  Body : ReqBody;
  Header : list HeaderOp }.

Definition addHeader (r : t) (op : HeaderOp) : t :=
  mk (Method r) (URL r) (Body r) (Header r ++ [op]).
End Request.

(** The client the code configures: [InsecureSkipVerify] and the proxy. *)
Module ClientConfig.
Record t : Type := mk {
  InsecureSkipVerify : bool;
  Proxy : option URL.t }.
End ClientConfig.

(** A response as the code sees it: [Body] is what [io.ReadAll(resp.Body)]
    gives. *)
Module Response.
Record t : Type := mk {
  StatusCode : Z;
  Header : list (string * list string);
  Body : result string }.
End Response.

(** The unexported struct [asyncResults] (lines 172-185). *)
Module AsyncResults.
Record t : Type := mk {
  Href : string;
  JobType : string;
  Description : string;
  Result_Href : string;
  Status : string;
  RequestedAt : string;
  TerminatedAt : string;
  RequestedBy_Href : string }.

Definition zero : t := mk "" "" "" "" "" "" "" "".
End AsyncResults.

Inductive WireEvent : Type :=
| WDo (cfg : ClientConfig.t) (req : Request.t)
| WSleep (d : Z).

(** How a call ends: it returns, it panics, or (in the model only) the
    bound on the polling loop is reached with the loop still running. *)
Inductive Outcome (A : Type) : Type :=
| Returned (a : A)
| Panicked (msg : string)
| OutOfFuel.
Arguments Returned {A} a.
Arguments Panicked {A} msg.
Arguments OutOfFuel {A}.

Class Transport : Type := {
  Wire : Type;
  (** [url.Parse] *)
  url_Parse : string -> result URL.t;
  (** the method check of [http.NewRequest] and the text of its error *)
  validMethod : string -> bool;
  invalidMethodError : string -> string;
  (** [strconv.Quote], used in the text of [strconv.Atoi]'s errors *)
  strconv_Quote : string -> string;
  (** [http.Header.Get] *)
  Header_Get : list (string * list string) -> string -> string;
  (** [json.Unmarshal] into a zero [asyncResults]; its error is dropped by
      the code, so only the struct it leaves matters *)
  json_Unmarshal : string -> AsyncResults.t;
  (** [os.Getenv] *)
  os_Getenv : string -> Wire -> string;
  (** [client.Do] *)
  client_Do : ClientConfig.t -> Request.t -> Wire -> result Response.t * Wire;
  (** the passing of time during [time.Sleep] *)
  wire_Sleep : Z -> Wire -> Wire }.

Module Wire.

Definition St `{Transport} : Type := (Wire * list WireEvent)%type.
Definition T `{Transport} (A : Type) : Type := St -> Outcome A * St.

Definition ret `{Transport} {A : Type} (a : A) : T A :=
  fun st => (Returned a, st).
Definition panic `{Transport} {A : Type} (msg : string) : T A :=
  fun st => (Panicked msg, st).
Definition outOfFuel `{Transport} {A : Type} : T A :=
  fun st => (OutOfFuel, st).
Definition bind `{Transport} {A B : Type} (c : T A) (k : A -> T B) : T B :=
  fun st =>
    match c st with
    | (Returned a, st') => k a st'
    | (Panicked msg, st') => (Panicked msg, st')
    | (OutOfFuel, st') => (OutOfFuel, st')
    end.

Notation "x <~~ c ; k" := (bind c (fun x => k))
  (at level 20, c at level 100, k at level 200, only parsing).
Notation "' pat <~~ c ; k" := (bind c (fun x => match x with pat => k end))
  (at level 20, pat pattern, c at level 100, k at level 200, only parsing).

Definition doRequest `{Transport} (cfg : ClientConfig.t) (req : Request.t)
  : T (result Response.t) :=
  fun st =>
    let '(r, w) := client_Do cfg req st.1 in
    (Returned r, (w, st.2 ++ [WDo cfg req])).

Definition sleep `{Transport} (d : Z) : T unit :=
  fun st => (Returned tt, (wire_Sleep d st.1, st.2 ++ [WSleep d])).

Definition getenv `{Transport} (key : string) : T string :=
  fun st => (Returned (os_Getenv key st.1), st).

(** *** [strconv] and [time.Duration] *)

Definition digitChar (d : Z) : ascii := ascii_of_N (Z.to_N (48 + d)).

Fixpoint formatDigits (fuel : nat) (n : Z) (acc : string) : string :=
  match fuel with
  | O => acc
  | S fuel' =>
      let acc' := String (digitChar (n mod 10)) acc in
      if (n <? 10)%Z then acc' else formatDigits fuel' (n / 10) acc'
  end.

(** [strconv.Itoa] on a 64-bit [int]: the decimal digits, after a minus
    sign for a negative number. *)
Definition strconv_Itoa (i : Z) : string :=
  if (i <? 0)%Z then String "-" (formatDigits 20 (- i) "")
  else formatDigits 20 i "".

Inductive NumError : Type := ErrSyntax | ErrRange.

Definition maxUint64 : Z := 18446744073709551615.

(** [strconv.ParseUint(s, 10, 64)] from the value [n] read so far: the
    bytes are taken from the left, and the first byte that is no digit, or
    the first digit that takes the value past 64 bits, ends the parse. *)
Fixpoint parseUint (s : string) (n : Z) : Z + NumError :=
  match s with
  | EmptyString => inl n
  | String c s' =>
      let d := (byteVal c - 48)%Z in
      if ((d <? 0) || (9 <? d))%Z then inr ErrSyntax
      else if (maxUint64 / 10 + 1 <=? n)%Z then inr ErrRange
      else if (maxUint64 <? n * 10 + d)%Z then inr ErrRange
      else parseUint s' (n * 10 + d)
  end.

(** [strconv.ParseInt(s, 10, 64)]: an optional sign, then digits. *)
Definition parseInt (s : string) : Z + NumError :=
  match s with
  | EmptyString => inr ErrSyntax
  | String c rest =>
      let neg := Ascii.eqb c "-" in
      let digits := if Ascii.eqb c "+" || neg then rest else s in
      match digits with
      | EmptyString => inr ErrSyntax
      | _ =>
          match parseUint digits 0 with
          | inr e => inr e
          | inl un =>
              if (negb neg && (2 ^ 63 <=? un))%Z then inr ErrRange
              else if (neg && (2 ^ 63 <? un))%Z then inr ErrRange
              else inl (if neg then - un else un)%Z
          end
      end
  end.

(** [strconv.Atoi] on a 64-bit platform, with the text of its error. *)
Definition strconv_Atoi `{Transport} (s : string) : result Z :=
  match parseInt s with
  | inl n => Ok n
  | inr ErrSyntax =>
      Err ("strconv.Atoi: parsing " +:+ strconv_Quote s +:+ ": invalid syntax")
  | inr ErrRange =>
      Err ("strconv.Atoi: parsing " +:+ strconv_Quote s
           +:+ ": value out of range")
  end.

(** 64-bit two's-complement wrap-around, as in the product
    [time.Duration(wait) * time.Second]. *)
Definition wrap64 (z : Z) : Z := ((z + 2 ^ 63) mod 2 ^ 64 - 2 ^ 63)%Z.

(** *** [net/http] *)

(** [http.NewRequest]: an empty method means GET, the method is checked,
    the URL parsed; the new request has an empty header. *)
Definition http_NewRequest `{Transport} (method url : string) (body : ReqBody)
  : result Request.t :=
  let method := if String.eqb method "" then "GET" else method in
  if negb (validMethod method) then Err (invalidMethodError method)
  else
    match url_Parse url with
    | Err e => Err e
    | Ok u => Ok (Request.mk method u body [])
    end.

(** Lines 203-219 and 311-327: the client and its transport. *)
Definition newClient `{Transport} (c : Conn.t) : result ClientConfig.t :=
  if negb (String.eqb (Conn.Proxy c) "") then
    match url_Parse (Conn.Proxy c) with
    | Err e => Err e
    | Ok proxyUrl =>
        Ok (ClientConfig.mk (Conn.DisableTLSChecking c) (Some proxyUrl))
    end
  else Ok (ClientConfig.mk (Conn.DisableTLSChecking c) None).

(** Lines 285-304: the response is read and put into the envelope; a status
    whose decimal text does not start with "2" is an error, returned with
    the envelope. *)
Definition readResponse (resp : Response.t) : APIResponse.t * error :=
  match Response.Body resp with
  | Err e => (APIResponse.zero, Some e)
  | Ok data =>
      let response :=
        APIResponse.mk data (Response.StatusCode resp) (Response.Header resp)
                       "" [] in
      if negb (String.eqb
                 (sliceStr (strconv_Itoa (Response.StatusCode resp)) 0 1) "2")
      then (response,
            Some ("http status code of "
                  +:+ strconv_Itoa (APIResponse.StatusCode response)))
      else (response, None)
  end.

(** [asyncPoll] (lines 308-369).  Line 330 reads [pollReq.URL] for the log
    before the error of [http.NewRequest] is looked at: when the request
    could not be built, [pollReq] is nil and the call panics. *)
Definition asyncPoll `{Transport} (c : Conn.t) (baseURL : string)
    (origResp : Response.t) : T (AsyncResults.t * error) :=
  match newClient c with
  | Err e => ret (AsyncResults.zero, Some e)
  | Ok client =>
      match http_NewRequest "GET"
              (baseURL +:+ Header_Get (Response.Header origResp) "Location")
              BodyNil with
      | Err _ => panic "invalid memory address or nil pointer dereference"
      | Ok pollReq =>
          let pollReq :=
            Request.addHeader pollReq
              (OpSetBasicAuth (Conn.User c) (Conn.Key c)) in
          let pollReq :=
            Request.addHeader pollReq
              (OpSet "Content-Type" "application/json") in
          match strconv_Atoi
                  (Header_Get (Response.Header origResp) "Retry-After") with
          | Err e => ret (AsyncResults.zero, Some e)
          | Ok wait =>
              let duration := wrap64 (wait * time_Second) in
              _ <~~ sleep duration ;
              r <~~ doRequest client pollReq ;
              match r with
              | Err e => ret (AsyncResults.zero, Some e)
              | Ok pollResp =>
                  match Response.Body pollResp with
                  | Err e => ret (AsyncResults.zero, Some e)
                  | Ok data => ret (json_Unmarshal data, None)
                  end
              end
          end
      end
  end.

(** The polling loop of [httpSetup] (lines 255-262): [inl] is an early
    return of [httpSetup], [inr] the results the loop ends with. *)
Fixpoint pollUntilDone `{Transport} (fuel : nat) (c : Conn.t)
    (baseURL : string) (resp : Response.t) (results : AsyncResults.t)
  : T (APIResponse.t * error + AsyncResults.t) :=
  if negb (String.eqb (AsyncResults.Status results) "done") then
    match fuel with
    | O => outOfFuel
    | S fuel' =>
        '(results, err) <~~ asyncPoll c baseURL resp ;
        match err with
        | Some e => ret (inl (APIResponse.zero, Some e))
        | None => pollUntilDone fuel' c baseURL resp results
        end
    end
  else ret (inr results).

(** The header calls on the first request (lines 231-237): basic
    authentication, the caller's headers, then [Prefer] when asynchronous.
    Go ranges over the caller's map in no specified order; the model takes
    the order of [map_to_list]. *)
Definition firstRequest (c : Conn.t) (req : Request.t)
    (headers : gmap string string) (async : bool) : Request.t :=
  let req := Request.addHeader req
               (OpSetBasicAuth (Conn.User c) (Conn.Key c)) in
  let req := foldl (fun r kv => Request.addHeader r (OpSet kv.1 kv.2))
                   req (map_to_list headers) in
  if async then Request.addHeader req (OpSet "Prefer" "respond-async")
  else req.

(** [httpSetup] (lines 187-305); [fuel] bounds the polling loop. *)
Definition httpSetup `{Transport} (fuel : nat) (c : Conn.t)
    (action apiURL body : string) (async : bool)
    (headers : gmap string string) : T (APIResponse.t * error) :=
  match url_Parse apiURL with
  | Err e => ret (APIResponse.zero, Some e)
  | Ok u =>
      let baseURL := "https://" +:+ URL.Host u +:+ "/api/v2" in
      let httpBody := BodyBuffer body in
      match newClient c with
      | Err e => ret (APIResponse.zero, Some e)
      | Ok client =>
          match http_NewRequest action apiURL httpBody with
          | Err e => ret (APIResponse.zero, Some e)
          | Ok req =>
              env <~~ getenv "FORCE_ASYNC" ;
              let async := if String.eqb env "true" then true else async in
              let req := firstRequest c req headers async in
              r <~~ doRequest client req ;
              match r with
              | Err e => ret (APIResponse.zero, Some e)
              | Ok resp =>
                  if async then
                    polled <~~ pollUntilDone fuel c baseURL resp
                                 AsyncResults.zero ;
                    match polled with
                    | inl early => ret early
                    | inr results =>
                        match http_NewRequest "GET"
                                (baseURL
                                 +:+ AsyncResults.Result_Href results)
                                httpBody with
                        | Err e => ret (APIResponse.zero, Some e)
                        | Ok finalReq =>
                            let finalReq :=
                              Request.addHeader finalReq
                                (OpSetBasicAuth (Conn.User c) (Conn.Key c)) in
                            let finalReq :=
                              Request.addHeader finalReq
                                (OpSet "Content-Type" "application/json") in
                            r <~~ doRequest client finalReq ;
                            match r with
                            | Err e => ret (APIResponse.zero, Some e)
                            | Ok resp => ret (readResponse resp)
                            end
                        end
                    end
                  else ret (readResponse resp)
              end
          end
      end
  end.

End Wire.

(** *** An example transport *)

(** The host of "https://host/path". *)
Fixpoint upToSlash (s : string) : string :=
  match s with
  | EmptyString => EmptyString
  | String c s' => if Ascii.eqb c "/" then EmptyString
                   else String c (upToSlash s')
  end.

(** [url.Parse] refuses a string with an ASCII control byte. *)
Fixpoint hasCTL (s : string) : bool :=
  match s with
  | EmptyString => false
  | String c s' =>
      (byteVal c <? 32)%Z || (byteVal c =? 127)%Z || hasCTL s'
  end.

Definition toyParse (s : string) : result URL.t :=
  if hasCTL s then Err "net/url: invalid control character in URL"
  else Ok (URL.mk (upToSlash (strings_TrimPrefix s "https://")) s).

Fixpoint toyGet (h : list (string * list string)) (key : string) : string :=
  match h with
  | [] => ""
  | (k, vs) :: h' =>
      if String.eqb k key then match vs with v :: _ => v | [] => "" end
      else toyGet h' key
  end.

(** A job status body is read as "done <result href>" or as a status. *)
Definition toyDecode (data : string) : AsyncResults.t :=
  if strings_HasPrefix data "done "
  then AsyncResults.mk "" "" "" (strings_TrimPrefix data "done ") "done"
                       "" "" ""
  else AsyncResults.mk "" "" "" "" data "" "" "".

(** The [n]-th exchange is answered by [answers n]; the environment is
    [env]. *)
Definition scriptedWire (answers : nat -> result Response.t)
    (env : string -> string) : Transport :=
  {| Wire := nat;
     url_Parse := toyParse;
     validMethod := fun m =>
       String.eqb m "GET" || String.eqb m "POST" || String.eqb m "PUT"
       || String.eqb m "DELETE";
     invalidMethodError := fun m => "net/http: invalid method " +:+ m;
     strconv_Quote := fun s => String "034" (s +:+ String "034" "");
     Header_Get := toyGet;
     json_Unmarshal := toyDecode;
     os_Getenv := fun key _ => env key;
     client_Do := fun _ _ w => (answers w, S w);
     wire_Sleep := fun _ w => w |}.

Definition accepted : Response.t :=
  Response.mk 202 [("Location", ["/jobs/1"]); ("Retry-After", ["2"])] (Ok "").

(** The job is running at the first poll and done at the second. *)
Definition jobDone : Transport :=
  scriptedWire
    (fun n => match n with
              | 0%nat => Ok accepted
              | 1%nat => Ok (Response.mk 200 [] (Ok "running"))
              | 2%nat => Ok (Response.mk 200 [] (Ok "done /reports/1"))
              | _ => Ok (Response.mk 200 [] (Ok "[1,2,3]"))
              end)
    (fun _ => "").

(** The job never gets done. *)
Definition jobRunning : Transport :=
  scriptedWire
    (fun n => match n with
              | 0%nat => Ok accepted
              | _ => Ok (Response.mk 200 [] (Ok "running"))
              end)
    (fun _ => "").

(** Every exchange is answered 404 with a body. *)
Definition notFound : Transport :=
  scriptedWire (fun _ => Ok (Response.mk 404 [] (Ok "no such resource")))
               (fun key => if String.eqb key "FORCE_ASYNC" then "TRUE"
                           else "").

Definition conn : Conn.t := Conn.mk "api_user" "api_key" "" false.



Definition labelsURL : string :=
  "https://pce.example.com:8443/api/v2/orgs/1/labels".

(** ** Notions for the statements on the transport *)


(** The header calls made on every poll request and on the final request:
    basic authentication and the JSON content type. *)
Definition authJSON (c : Conn.t) (req : Request.t) : Request.t :=
  Request.addHeader
    (Request.addHeader req (OpSetBasicAuth (Conn.User c) (Conn.Key c)))
    (OpSet "Content-Type" "application/json").

Definition wireTrace `{Transport} {A : Type} (r : Outcome A * Wire.St)
  : list WireEvent := r.2.2.

(** What the example calls are made of. *)
Definition plainClient : ClientConfig.t := ClientConfig.mk false None.

Definition exampleHost : URL.t := URL.mk "pce.example.com:8443" labelsURL.

Definition labelsRequest : Request.t :=
  Request.mk "GET" exampleHost (BodyBuffer "") [].

Definition jobsRequest : Request.t :=
  Request.mk "GET"
    (URL.mk "pce.example.com:8443"
            "https://pce.example.com:8443/api/v2/jobs/1")
    BodyNil [].

Definition start : nat * list WireEvent := (0%nat, []).

(** [init] (lines 142-146): the value [Verbose] is given at start-up, from
    the environment variable ILLUMIOAPI_VERBOSE. *)
Definition init `{UnicodeTables} (getenv : string -> string) : bool :=
  if String.eqb (strings_ToLower (getenv "ILLUMIOAPI_VERBOSE")) "true"
  then true else false.

(** ** The collection calls of [GetLabelGroups] *)

(** The endpoint of lines 47 and 50. *)
Definition endpointOf `{UnicodeTables} (pStatus : string) : string :=
  "/sec_policy/" +:+ strings_ToLower pStatus +:+ "/label_groups".

(** The call of line 47, made in the world [w]. *)
Definition firstCall `{Network} `{UnicodeTables} (p : PCE.t)
    (queryParameters : gmap string string) (pStatus : string) (w : World)
  : (APIResponse.t * error * PCE.t) * World :=
  GetCollection p (endpointOf pStatus) false queryParameters w.

(** The call of line 50, made after the first one on the PCE it left, with
    the slice set to nil (line 49). *)
Definition secondCall `{Network} `{UnicodeTables} (p : PCE.t)
    (queryParameters : gmap string string) (pStatus : string) (w : World)
  : (APIResponse.t * error * PCE.t) * World :=
  GetCollection
    (PCE.set_LabelGroupsSlice (firstCall p queryParameters pStatus w).1.2 [])
    (endpointOf pStatus) true queryParameters
    (firstCall p queryParameters pStatus w).2.

(** The last collection call made: the second one when the first left 500
    groups or more in the slice (line 48), the first one otherwise. *)
Definition lastCall `{Network} `{UnicodeTables} (p : PCE.t)
    (queryParameters : gmap string string) (pStatus : string) (w : World)
  : (APIResponse.t * error * PCE.t) * World :=
  if (500 <=? Z.of_nat
                (length (PCE.LabelGroupsSlice
                           (firstCall p queryParameters pStatus w).1.2)))%Z
  then secondCall p queryParameters pStatus w
  else firstCall p queryParameters pStatus w.

(** The slice as the collection calls leave it. *)
Definition fetchedSlice `{Network} `{UnicodeTables} (p : PCE.t)
    (queryParameters : gmap string string) (pStatus : string) (w : World)
  : list LabelGroup.t :=
  PCE.LabelGroupsSlice (lastCall p queryParameters pStatus w).1.2.

(** A collection of two groups with hrefs, names and keys all distinct. *)
Definition groupA : LabelGroup.t :=
  LabelGroup.mk "/a" "first" None "k1" None None None None None.
Definition groupB : LabelGroup.t :=
  LabelGroup.mk "/b" "second" None "k2" None None None None None.

Definition twoGroups : Network :=
  scripted (fun _ => 200%Z) (ok200, None, Some [groupA; groupB])
           (ok200, None, None).

(** The entry of Go's Unicode tables that lower-cases U+0130 (capital I with
    a dot above, the bytes 196 176 in UTF-8) to the letter i, with the
    lower-casing of ASCII letters; the other runes are left as they are
    here. *)
Fixpoint lowerDottedI (s : string) : string :=
  match s with
  | EmptyString => EmptyString
  | String c s' =>
      match s' with
      | String d rest =>
          if ((byteVal c =? 196) && (byteVal d =? 176))%Z
          then String "i" (lowerDottedI rest)
          else String (lowerByte c) (lowerDottedI s')
      | EmptyString => String (lowerByte c) EmptyString
      end
  end.

Definition dottedI : UnicodeTables := {| MapToLower := lowerDottedI |}.

(** "ACTIVE" spelled with U+0130 for its I. *)
Definition activeDotted : string :=
  "ACT" +:+ String "196" (String "176" "VE").

(** ** [httpReq] over the embedded [httpSetup]

    The same function as [httpReq] above, with its calls of [httpSetup] run
    on the transport, where a call may panic or poll without end.  [turns]
    bounds the retry loop and [fuel] the polling loop of each call. *)
Module WireReq.

Fixpoint httpReqLoop `{Transport} (turns fuel : nat) (c : Conn.t)
    (action apiURL body : string) (async : bool)
    (headers : gmap string string)
    (api : APIResponse.t) (err : error) (retry : Z)
  : Wire.T (APIResponse.t * error) :=
  if (APIResponse.StatusCode api =? 429)%Z then
    match turns with
    | O => Wire.outOfFuel
    | S turns' =>
        if (retry >? 6)%Z then
          Wire.ret
            (api,
             Some "received 6 429 errors with 30 second pauses between attempts")
        else
          let retry := (retry + 1)%Z in
          Wire.bind (Wire.sleep (30 * time_Second)) (fun _ =>
          Wire.bind (Wire.httpSetup fuel c action apiURL body async headers)
            (fun r =>
               httpReqLoop turns' fuel c action apiURL body async headers
                           r.1 r.2 retry))
    end
  else Wire.ret (api, err).

Definition httpReq `{Transport} (turns fuel : nat) (c : Conn.t)
    (action apiURL body : string) (async : bool)
    (headers : gmap string string) : Wire.T (APIResponse.t * error) :=
  Wire.bind (Wire.httpSetup fuel c action apiURL body async headers)
    (fun r =>
       let retry := 0%Z in
       httpReqLoop turns fuel c action apiURL body async headers
                   r.1 r.2 retry).

End WireReq.

(** [seg] is what one run of [call], from some state, adds to the trace. *)
Definition runOf `{Transport} {A : Type} (call : Wire.T A)
    (seg : list WireEvent) : Prop :=
  ∃ st0, wireTrace (call st0) = st0.2 ++ seg.

(** Every exchange is answered 429. *)
Definition rateLimited : Transport :=
  scriptedWire (fun _ => Ok (Response.mk 429 [] (Ok "slow down")))
               (fun _ => "").

(** * Properties *)

Arguments expandLabelGroup : simpl never.
Arguments expandRound : simpl never.
Arguments dedupe : simpl never.

(** ** Expansion: basic facts *)

Lemma foldl_snoc_map {A B : Type} (f : A -> B) (l : list A) (acc : list B) :
  foldl (fun acc a => acc ++ [f a]) acc l = acc ++ map f l.
Proof.
  revert acc; induction l as [|a l IH]; intros acc; simpl.
  - by rewrite app_nil_r.
  - rewrite IH, <- app_assoc. reflexivity.
Qed.

Lemma labelHrefsOf_eq (p : PCE.t) (g : string) :
  labelHrefsOf p g =
  map Label.Href (PtrToVal [] (LabelGroup.Labels (lookupLabelGroup p g))).
Proof. unfold labelHrefsOf, expandLabelGroup; cbn. by rewrite foldl_snoc_map. Qed.

Lemma subGroupHrefsOf_eq (p : PCE.t) (g : string) :
  subGroupHrefsOf p g =
  map SubGroups.Href
      (PtrToVal [] (LabelGroup.SubGroups (lookupLabelGroup p g))).
Proof. unfold subGroupHrefsOf, expandLabelGroup; cbn. by rewrite foldl_snoc_map. Qed.

Lemma expandLabelGroup_eq (p : PCE.t) (g : string) :
  expandLabelGroup p g = (labelHrefsOf p g, subGroupHrefsOf p g).
Proof. reflexivity. Qed.

(** One pass over a snapshot: the labels of all its groups are appended, and
    the variable [moreSGs] ends up holding the subgroups of the last one. *)
Lemma expandRound_snoc (p : PCE.t) (snapshot : list string) (g : string)
    (st : list string * list string) :
  expandRound p (snapshot ++ [g]) st =
  ((expandRound p snapshot st).1 ++ labelHrefsOf p g, subGroupHrefsOf p g).
Proof.
  unfold expandRound. rewrite foldl_app. cbn [foldl].
  rewrite expandLabelGroup_eq. reflexivity.
Qed.

Lemma expandRound_labels (p : PCE.t) (snapshot : list string)
    (st : list string * list string) :
  (expandRound p snapshot st).1 = st.1 ++ concat (map (labelHrefsOf p) snapshot).
Proof.
  revert st; induction snapshot as [|g l IH]; intros st.
  - simpl. by rewrite app_nil_r.
  - change (expandRound p (g :: l) st)
      with (expandRound p l (st.1 ++ labelHrefsOf p g, subGroupHrefsOf p g)).
    rewrite IH. simpl. by rewrite <- app_assoc.
Qed.

Lemma expandRound_more (p : PCE.t) (snapshot : list string) (g : string)
    (st : list string * list string) :
  (expandRound p (snapshot ++ [g]) st).2 = subGroupHrefsOf p g.
Proof. by rewrite expandRound_snoc. Qed.

(** The loops, one step at a time. *)
Lemma expandMore_nil (fuel : nat) (p : PCE.t) (labelHrefs : list string) :
  expandMore fuel p labelHrefs [] = Some labelHrefs.
Proof. by destruct fuel. Qed.

Lemma expandMore_cons (fuel : nat) (p : PCE.t) (labelHrefs : list string)
    (g : string) (l : list string) :
  expandMore (S fuel) p labelHrefs (g :: l) =
  expandMore fuel p
    (expandRound p (g :: l) (labelHrefs, g :: l)).1
    (expandRound p (g :: l) (labelHrefs, g :: l)).2.
Proof.
  cbn [expandMore].
  by destruct (expandRound p (g :: l) (labelHrefs, g :: l)).
Qed.

Lemma expandSubGroups_cons (fuel : nat) (p : PCE.t) (sg : SubGroups.t)
    (rest : list SubGroups.t) (labelHrefs : list string) :
  expandSubGroups fuel p (sg :: rest) labelHrefs =
  match expandMore fuel p
          (labelHrefs ++ labelHrefsOf p (SubGroups.Href sg))
          (subGroupHrefsOf p (SubGroups.Href sg)) with
  | None => None
  | Some labelHrefs' => expandSubGroups fuel p rest labelHrefs'
  end.
Proof. reflexivity. Qed.

Lemma ExpandLabelGroup_eq (fuel : nat) (p : PCE.t) (href : string) :
  ExpandLabelGroup fuel p href =
  match expandSubGroups fuel p
          (PtrToVal [] (LabelGroup.SubGroups (lookupLabelGroup p href)))
          (labelHrefsOf p href) with
  | None => None
  | Some labelHrefs' => Some (dedupe labelHrefs')
  end.
Proof. reflexivity. Qed.

(** More fuel never changes a result. *)
Lemma expandMore_mono (p : PCE.t) (fuel fuel' : nat)
    (labelHrefs moreSGs r : list string) :
  (fuel <= fuel')%nat ->
  expandMore fuel p labelHrefs moreSGs = Some r ->
  expandMore fuel' p labelHrefs moreSGs = Some r.
Proof.
  revert fuel' labelHrefs moreSGs.
  induction fuel as [|fuel IH]; intros fuel' labelHrefs moreSGs Hle H.
  - destruct moreSGs; [|discriminate]. by rewrite expandMore_nil in *.
  - destruct fuel' as [|fuel']; [lia|].
    destruct moreSGs as [|g l]; [exact H|].
    rewrite expandMore_cons in *. apply IH; [lia | exact H].
Qed.

Lemma expandSubGroups_mono (p : PCE.t) (fuel fuel' : nat)
    (sgs : list SubGroups.t) (labelHrefs r : list string) :
  (fuel <= fuel')%nat ->
  expandSubGroups fuel p sgs labelHrefs = Some r ->
  expandSubGroups fuel' p sgs labelHrefs = Some r.
Proof.
  intros Hle. revert labelHrefs.
  induction sgs as [|sg rest IH]; intros labelHrefs H; [exact H|].
  rewrite expandSubGroups_cons in *.
  destruct (expandMore fuel p _ _) as [lh|] eqn:E; [|discriminate].
  rewrite (expandMore_mono _ _ _ _ _ _ Hle E). by apply IH.
Qed.

Lemma ExpandLabelGroup_mono (p : PCE.t) (fuel fuel' : nat) (href : string)
    (r : list string) :
  (fuel <= fuel')%nat ->
  ExpandLabelGroup fuel p href = Some r ->
  ExpandLabelGroup fuel' p href = Some r.
Proof.
  intros Hle. rewrite !ExpandLabelGroup_eq.
  destruct (expandSubGroups fuel p _ _) as [lh|] eqn:E; [|discriminate].
  by rewrite (expandSubGroups_mono _ _ _ _ _ _ Hle E).
Qed.

(** ** De-duplication *)

Lemma dedupe_map_lookup (l : list string) (m : gmap string bool) (x : string) :
  foldl (fun m l => <[l := true]> m) m l !! x =
  if decide (x ∈ l) then Some true else m !! x.
Proof.
  revert m; induction l as [|y l IH]; intros m; cbn [foldl].
  - destruct (decide (x ∈ [])) as [H|H]; [by apply elem_of_nil in H | done].
  - rewrite IH. destruct (decide (x ∈ l)) as [Hin|Hin].
    + rewrite decide_True; [done | by right].
    + destruct (decide (x = y)) as [->|Hne].
      * rewrite decide_True; [|by left]. apply lookup_insert_eq.
      * rewrite decide_False; [by rewrite lookup_insert_ne|].
        intros Hc. apply elem_of_cons in Hc as [?|?]; done.
Qed.

Lemma elem_of_dedupe (l : list string) (x : string) :
  x ∈ dedupe l ↔ x ∈ l.
Proof.
  unfold dedupe. rewrite list_elem_of_fmap. split.
  - intros [[k v] [-> Hkv]]. apply elem_of_map_to_list in Hkv.
    rewrite dedupe_map_lookup in Hkv. simpl.
    case_decide; [done|]. by rewrite lookup_empty in Hkv.
  - intros Hin. exists (x, true). split; [done|].
    apply elem_of_map_to_list. rewrite dedupe_map_lookup.
    by rewrite decide_True.
Qed.

Lemma NoDup_dedupe (l : list string) : NoDup (dedupe l).
Proof. unfold dedupe. apply NoDup_fst_map_to_list. Qed.

(** ** Expansion: what is accumulated *)

Lemma subGroupHrefsOf_reached (p : PCE.t) (root g : string) :
  reaches p root g -> allReached p root (subGroupHrefsOf p g).
Proof. intros Hg k Hk. by apply reaches_step with g. Qed.

Lemma expandRound_sound (p : PCE.t) (root : string) (snapshot : list string)
    (st : list string * list string) :
  allReached p root snapshot -> sound p root st.1 ->
  sound p root (expandRound p snapshot st).1.
Proof.
  intros Hsnap Hst x. rewrite expandRound_labels, elem_of_app.
  intros [Hx|Hx]; [by apply Hst|].
  apply list_elem_of_In, in_concat in Hx as (l & Hl & Hx).
  apply in_map_iff in Hl as (g & <- & Hg).
  exists g. split; [apply Hsnap|]; by apply list_elem_of_In.
Qed.

Lemma expandRound_reached (p : PCE.t) (root : string) (snapshot : list string)
    (st : list string * list string) :
  allReached p root snapshot -> allReached p root st.2 ->
  allReached p root (expandRound p snapshot st).2.
Proof.
  intros Hsnap Hst. destruct snapshot as [|g l] using rev_ind; [exact Hst|].
  rewrite expandRound_more. apply subGroupHrefsOf_reached, Hsnap.
  apply elem_of_app; right. by apply list_elem_of_singleton.
Qed.

Lemma expandRound_incl (p : PCE.t) (snapshot : list string)
    (st : list string * list string) (x : string) :
  x ∈ st.1 -> x ∈ (expandRound p snapshot st).1.
Proof. intros Hx. rewrite expandRound_labels. apply elem_of_app; by left. Qed.

(** The loops only ever append. *)
Lemma expandMore_incl (p : PCE.t) (fuel : nat) (labelHrefs moreSGs r : list string)
    (x : string) :
  expandMore fuel p labelHrefs moreSGs = Some r -> x ∈ labelHrefs -> x ∈ r.
Proof.
  revert labelHrefs moreSGs.
  induction fuel as [|fuel IH]; intros labelHrefs moreSGs H Hx.
  - destruct moreSGs; [|discriminate]. rewrite expandMore_nil in H. congruence.
  - destruct moreSGs as [|g l]; [rewrite expandMore_nil in H; congruence|].
    rewrite expandMore_cons in H. eapply IH; [exact H|].
    by apply expandRound_incl.
Qed.

Lemma expandSubGroups_incl (p : PCE.t) (fuel : nat) (sgs : list SubGroups.t)
    (labelHrefs r : list string) (x : string) :
  expandSubGroups fuel p sgs labelHrefs = Some r -> x ∈ labelHrefs -> x ∈ r.
Proof.
  revert labelHrefs. induction sgs as [|sg rest IH]; intros labelHrefs H Hx.
  - simpl in H. congruence.
  - rewrite expandSubGroups_cons in H.
    destruct (expandMore fuel p _ _) as [lh|] eqn:E; [|discriminate].
    eapply IH; [exact H|]. eapply expandMore_incl; [exact E|].
    apply elem_of_app; by left.
Qed.

Lemma expandSubGroups_direct (p : PCE.t) (fuel : nat) (sgs : list SubGroups.t)
    (labelHrefs r : list string) (sg : SubGroups.t) (x : string) :
  expandSubGroups fuel p sgs labelHrefs = Some r ->
  sg ∈ sgs -> x ∈ labelHrefsOf p (SubGroups.Href sg) -> x ∈ r.
Proof.
  revert labelHrefs. induction sgs as [|sg' rest IH]; intros labelHrefs H Hsg Hx.
  - by apply elem_of_nil in Hsg.
  - rewrite expandSubGroups_cons in H.
    destruct (expandMore fuel p _ _) as [lh|] eqn:E; [|discriminate].
    apply elem_of_cons in Hsg as [->|Hsg]; [|by eapply IH].
    eapply expandSubGroups_incl; [exact H|].
    eapply expandMore_incl; [exact E|]. apply elem_of_app; by right.
Qed.

(** ** Expansion: termination on acyclic tables *)

Section Acyclic.
Context (p : PCE.t) (rank : string -> nat) (Hacyclic : acyclic p rank).
Context (root : string).

Lemma expandMore_acyclic (fuel : nat) (moreSGs labelHrefs : list string) :
  (∀ g, g ∈ moreSGs → (rank g < fuel)%nat) ->
  allReached p root moreSGs -> sound p root labelHrefs ->
  ∃ r, expandMore fuel p labelHrefs moreSGs = Some r ∧ sound p root r.
Proof.
  revert moreSGs labelHrefs.
  induction fuel as [|fuel IH]; intros moreSGs labelHrefs Hrank Hreach Hsound.
  - destruct moreSGs as [|g l].
    + exists labelHrefs. by rewrite expandMore_nil.
    + specialize (Hrank g ltac:(by left)). lia.
  - destruct moreSGs as [|g l].
    + exists labelHrefs. by rewrite expandMore_nil.
    + rewrite expandMore_cons. apply IH.
      * destruct (exists_last (l := g :: l) ltac:(discriminate))
          as (l' & a & Heq).
        rewrite Heq in *. rewrite expandRound_more. intros k Hk.
        pose proof (Hacyclic a k Hk) as Hlt.
        assert (a ∈ l' ++ [a]) as Ha by (apply elem_of_app; right; by left).
        specialize (Hrank a Ha). lia.
      * by apply expandRound_reached.
      * by apply expandRound_sound.
Qed.

Lemma expandSubGroups_acyclic (fuel : nat) (sgs : list SubGroups.t)
    (labelHrefs : list string) :
  (∀ sg, sg ∈ sgs → (rank (SubGroups.Href sg) <= fuel)%nat) ->
  (∀ sg, sg ∈ sgs → reaches p root (SubGroups.Href sg)) ->
  sound p root labelHrefs ->
  ∃ r, expandSubGroups fuel p sgs labelHrefs = Some r ∧ sound p root r.
Proof.
  revert labelHrefs.
  induction sgs as [|sg rest IH]; intros labelHrefs Hrank Hreach Hsound.
  - by exists labelHrefs.
  - rewrite expandSubGroups_cons.
    destruct (expandMore_acyclic fuel
                (subGroupHrefsOf p (SubGroups.Href sg))
                (labelHrefs ++ labelHrefsOf p (SubGroups.Href sg)))
      as (lh & -> & Hlh).
    + intros g Hg. pose proof (Hacyclic _ _ Hg) as Hlt.
      specialize (Hrank sg ltac:(by left)). lia.
    + apply subGroupHrefsOf_reached, Hreach. by left.
    + intros x [Hx|Hx]%elem_of_app; [by apply Hsound|].
      exists (SubGroups.Href sg). split; [apply Hreach; by left | done].
    + apply IH; [| |done]; intros sg' Hsg'.
      * apply Hrank. by right.
      * apply Hreach. by right.
Qed.

End Acyclic.

(** ** Expansion: cycles *)

(** Two groups that list each other as their only subgroup keep the loop of
    lines 93-99 running for ever: no bound on its iterations is enough. *)
Lemma expandMore_two_cycle (p : PCE.t) (a b : string) :
  subGroupHrefsOf p a = [b] -> subGroupHrefsOf p b = [a] ->
  ∀ fuel labelHrefs,
    expandMore fuel p labelHrefs [a] = None ∧
    expandMore fuel p labelHrefs [b] = None.
Proof.
  intros Ha Hb. induction fuel as [|fuel IH]; intros labelHrefs; [done|].
  rewrite !expandMore_cons.
  rewrite (expandRound_more p [] a), (expandRound_more p [] b), Ha, Hb.
  split; apply IH.
Qed.

Lemma ExpandLabelGroup_two_cycle (p : PCE.t) (a b : string) :
  subGroupHrefsOf p a = [b] -> subGroupHrefsOf p b = [a] ->
  ∀ fuel, ExpandLabelGroup fuel p a = None.
Proof.
  intros Ha Hb fuel. rewrite ExpandLabelGroup_eq.
  pose proof Ha as Ha'. rewrite subGroupHrefsOf_eq in Ha'.
  destruct (PtrToVal [] _) as [|sg [|sg' rest]]; try discriminate.
  injection Ha' as Hsg. rewrite expandSubGroups_cons, Hsg, Hb.
  by rewrite (proj1 (expandMore_two_cycle p a b Ha Hb fuel _)).
Qed.

Lemma nested_acyclic : acyclic nested nestedRank.
Proof.
  intros g sg. rewrite subGroupHrefsOf_eq. unfold lookupLabelGroup, nested.
  cbn [PCE.LabelGroups]. rewrite !lookup_insert, lookup_empty.
  repeat case_decide; subst; cbn; intros Hin;
    repeat (apply elem_of_cons in Hin as [->|Hin]; [vm_compute; lia|]);
    by apply elem_of_nil in Hin.
Qed.

(** ** Expansion: the claims *)

(** C1 (as amended).  On every lookup table whose subgroup references are
    acyclic, [ExpandLabelGroup root] terminates (any bound on the loop
    iterations from [rank root] on gives the same result); the result holds
    no label twice, every label in it is a terminal label of a group
    reachable from [root], and it holds all labels of [root] and of the
    subgroups [root] lists. *)
Theorem ExpandLabelGroup_acyclic_terminates (p : PCE.t)
    (rank : string -> nat) (root : string) :
  acyclic p rank ->
  ∃ res,
    (∀ fuel, (rank root <= fuel)%nat → ExpandLabelGroup fuel p root = Some res)
    ∧ NoDup res
    ∧ (∀ x, x ∈ res → ∃ g, reaches p root g ∧ x ∈ labelHrefsOf p g)
    ∧ (∀ x, x ∈ labelHrefsOf p root → x ∈ res)
    ∧ (∀ sg x, sg ∈ subGroupHrefsOf p root →
               x ∈ labelHrefsOf p sg → x ∈ res).
Proof.
  intros Hacyclic.
  destruct (expandSubGroups_acyclic p rank Hacyclic root (rank root)
              (PtrToVal [] (LabelGroup.SubGroups (lookupLabelGroup p root)))
              (labelHrefsOf p root))
    as (r & Hr & Hsound).
  - intros sg Hsg. apply Nat.lt_le_incl, Hacyclic.
    rewrite subGroupHrefsOf_eq. apply list_elem_of_In, in_map.
    by apply list_elem_of_In.
  - intros sg Hsg. apply reaches_step with root; [constructor|].
    rewrite subGroupHrefsOf_eq. apply list_elem_of_In, in_map.
    by apply list_elem_of_In.
  - intros x Hx. exists root. split; [constructor | done].
  - exists (dedupe r). repeat split.
    + intros fuel Hfuel. apply ExpandLabelGroup_mono with (rank root); [done|].
      by rewrite ExpandLabelGroup_eq, Hr.
    + apply NoDup_dedupe.
    + intros x Hx. rewrite elem_of_dedupe in Hx. exact (Hsound x Hx).
    + intros x Hx. apply elem_of_dedupe.
      by eapply expandSubGroups_incl.
    + intros sg x Hsg Hx. apply elem_of_dedupe.
      rewrite subGroupHrefsOf_eq in Hsg.
      apply list_elem_of_In, in_map_iff in Hsg as (sg' & <- & Hsg').
      eapply expandSubGroups_direct; [exact Hr | | exact Hx].
      by apply list_elem_of_In.
Qed.

Lemma ExpandLabelGroup_acyclic_terminates_witness :
  acyclic nested nestedRank ∧
  ∃ res,
    (∀ fuel, (nestedRank "P" <= fuel)%nat →
             ExpandLabelGroup fuel nested "P" = Some res)
    ∧ NoDup res
    ∧ (∀ x, x ∈ res → ∃ g, reaches nested "P" g ∧ x ∈ labelHrefsOf nested g)
    ∧ (∀ x, x ∈ labelHrefsOf nested "P" → x ∈ res)
    ∧ (∀ sg x, sg ∈ subGroupHrefsOf nested "P" →
               x ∈ labelHrefsOf nested sg → x ∈ res).
Proof.
  split; [exact nested_acyclic|].
  exact (ExpandLabelGroup_acyclic_terminates nested nestedRank "P"
           nested_acyclic).
Defined.

(** C1 as stated fails: on the cycle A -> B -> A the call never returns,
    whatever bound is put on the number of loop iterations. *)
Lemma ExpandLabelGroup_cycle_diverges :
  subGroupHrefsOf cycleAB "A" = ["B"] ∧ subGroupHrefsOf cycleAB "B" = ["A"]
  ∧ ¬ ∃ fuel res, ExpandLabelGroup fuel cycleAB "A" = Some res.
Proof.
  split; [reflexivity|]. split; [reflexivity|].
  intros (fuel & res & Hres).
  by rewrite (ExpandLabelGroup_two_cycle cycleAB "A" "B") in Hres.
Qed.

(** C2.  On the table [nested], C is a subgroup of P and both expansions
    return, yet the label x of the nested group F is in the expansion of C
    and not in the expansion of P: the loop of lines 93-99 follows the
    subgroups of the last group of each round only. *)
Theorem ExpandLabelGroup_parent_misses_child_label :
  "C" ∈ subGroupHrefsOf nested "P" ∧
  ∃ rp rc,
    ExpandLabelGroup 3 nested "P" = Some rp ∧
    ExpandLabelGroup 3 nested "C" = Some rc ∧
    "x" ∈ rc ∧ "x" ∉ rp.
Proof.
  split; [by left|].
  eexists _, _. split; [vm_compute; reflexivity|].
  split; [vm_compute; reflexivity|].
  split; [by apply (bool_decide_unpack _) | by apply (bool_decide_unpack _)].
Qed.

(** C6.  A group present in the lookup table that lists no subgroup expands,
    whatever the bound, to exactly its own label references, each once. *)
Theorem ExpandLabelGroup_no_subgroups (p : PCE.t) (root : string)
    (lg : LabelGroup.t) (fuel : nat) :
  PCE.LabelGroups p !! root = Some lg ->
  PtrToVal [] (LabelGroup.SubGroups lg) = [] ->
  ∃ res,
    ExpandLabelGroup fuel p root = Some res
    ∧ NoDup res
    ∧ ∀ x, x ∈ res ↔
           x ∈ map Label.Href (PtrToVal [] (LabelGroup.Labels lg)).
Proof.
  intros Hlg Hsgs.
  assert (lookupLabelGroup p root = lg) as Hl
    by (unfold lookupLabelGroup; by rewrite Hlg).
  rewrite ExpandLabelGroup_eq, labelHrefsOf_eq, Hl, Hsgs.
  eexists. split; [reflexivity|]. split; [apply NoDup_dedupe|].
  intros x. apply elem_of_dedupe.
Qed.

Lemma ExpandLabelGroup_no_subgroups_witness :
  ∃ res,
    ExpandLabelGroup 0 leaf "L" = Some res
    ∧ NoDup res
    ∧ ∀ x, x ∈ res ↔ x ∈ ["l1"; "l2"; "l1"].
Proof.
  apply (ExpandLabelGroup_no_subgroups leaf "L"
           (group "L" ["l1"; "l2"; "l1"] []) 0).
  - vm_compute. reflexivity.
  - reflexivity.
Defined.

(** C7.  Whenever [ExpandLabelGroup] returns, the returned list holds no
    label reference more than once. *)
Theorem ExpandLabelGroup_NoDup (fuel : nat) (p : PCE.t) (root : string)
    (res : list string) :
  ExpandLabelGroup fuel p root = Some res -> NoDup res.
Proof.
  rewrite ExpandLabelGroup_eq.
  destruct (expandSubGroups fuel p _ _); [|discriminate].
  intros [= <-]. apply NoDup_dedupe.
Qed.

Lemma ExpandLabelGroup_NoDup_witness :
  ∃ res, ExpandLabelGroup 3 nested "C" = Some res ∧ NoDup res.
Proof.
  eexists. split; [vm_compute; reflexivity|].
  apply (ExpandLabelGroup_NoDup 3 nested "C"). vm_compute. reflexivity.
Defined.

(** C8.  A reference absent from the lookup table contributes no label and
    no subgroup, and expanding it returns the empty list (the function has
    no error result). *)
Theorem ExpandLabelGroup_absent (p : PCE.t) (root : string) (fuel : nat) :
  PCE.LabelGroups p !! root = None ->
  expandLabelGroup p root = ([], []) ∧
  ExpandLabelGroup fuel p root = Some [].
Proof.
  intros Habs.
  assert (lookupLabelGroup p root = LabelGroup.zero) as Hz
    by (unfold lookupLabelGroup; by rewrite Habs).
  split.
  - unfold expandLabelGroup. by rewrite Hz.
  - rewrite ExpandLabelGroup_eq, labelHrefsOf_eq, Hz. cbn.
    unfold dedupe. cbn. by rewrite map_to_list_empty.
Qed.

Lemma ExpandLabelGroup_absent_witness :
  PCE.LabelGroups leaf !! "missing" = None ∧
  expandLabelGroup leaf "missing" = ([], []) ∧
  ExpandLabelGroup 0 leaf "missing" = Some [].
Proof.
  assert (PCE.LabelGroups leaf !! "missing" = None) as H
    by (vm_compute; reflexivity).
  split; [exact H|].
  exact (ExpandLabelGroup_absent leaf "missing" 0 H).
Defined.

(** ** [GetLabelGroups]: validation *)

Section Collection.
Context `{Network} `{UnicodeTables}.

(** The test of line 44, read through [equalUpToCase]. *)
Lemma pStatus_test (pStatus : string) :
  negb (String.eqb (strings_ToLower pStatus) "active")
  && negb (String.eqb (strings_ToLower pStatus) "draft") = false
  ↔ equalUpToCase pStatus "draft" ∨ equalUpToCase pStatus "active".
Proof.
  unfold equalUpToCase.
  change (strings_ToLower "draft") with "draft".
  change (strings_ToLower "active") with "active".
  destruct (String.eqb_spec (strings_ToLower pStatus) "active") as [->|Ha];
    [by split; [right|]|].
  destruct (String.eqb_spec (strings_ToLower pStatus) "draft") as [->|Hd];
    [by split; [left|]|].
  split; [discriminate | by intros [?|?]].
Qed.

Lemma GetLabelGroups_invalid (p : PCE.t) (queryParameters : gmap string string)
    (pStatus : string) (st : St) :
  ¬ (equalUpToCase pStatus "draft" ∨ equalUpToCase pStatus "active") ->
  GetLabelGroups p queryParameters pStatus st =
  ((p, APIResponse.zero, Some "invalid pStatus"), st).
Proof.
  intros Hbad. unfold GetLabelGroups.
  destruct (negb _ && negb _) eqn:E; [reflexivity|].
  by apply pStatus_test in E.
Qed.

(** Past validation the call is lines 47-58: one collection call, a second
    one with the async flag when 500 groups or more came back, and the
    lookup table rebuilt from the slice. *)
Lemma GetLabelGroups_valid (p : PCE.t) (queryParameters : gmap string string)
    (pStatus : string) (st : St) :
  equalUpToCase pStatus "draft" ∨ equalUpToCase pStatus "active" ->
  let endpoint := "/sec_policy/" +:+ strings_ToLower pStatus +:+ "/label_groups" in
  let first := GetCollection p endpoint false queryParameters st.1 in
  let second := GetCollection (PCE.set_LabelGroupsSlice first.1.2 [])
                  endpoint true queryParameters first.2 in
  GetLabelGroups p queryParameters pStatus st =
  if (500 <=? Z.of_nat (length (PCE.LabelGroupsSlice first.1.2)))%Z then
    ((PCE.set_LabelGroups second.1.2
        (indexLabelGroups (PCE.LabelGroupsSlice second.1.2)),
      second.1.1.1, second.1.1.2),
     (second.2,
      (st.2 ++ [EvGetCollection endpoint false queryParameters])
        ++ [EvGetCollection endpoint true queryParameters]))
  else
    ((PCE.set_LabelGroups first.1.2
        (indexLabelGroups (PCE.LabelGroupsSlice first.1.2)),
      first.1.1.1, first.1.1.2),
     (first.2, st.2 ++ [EvGetCollection endpoint false queryParameters])).
Proof.
  intros Hok endpoint first second. unfold GetLabelGroups.
  apply pStatus_test in Hok. rewrite Hok.
  unfold bind, doGetCollection, ret. fold endpoint. fold first.
  destruct first as [[[api1 err1] p1] w1] eqn:E1. cbn.
  destruct (500 <=? Z.of_nat (length (PCE.LabelGroupsSlice p1)))%Z; cbn.
  - subst second. cbn.
    destruct (GetCollection (PCE.set_LabelGroupsSlice p1 []) endpoint true
                queryParameters w1)
      as [[[? ?] ?] ?].
    reflexivity.
  - reflexivity.
Qed.

Lemma GetLabelGroups_valid_table (p : PCE.t)
    (queryParameters : gmap string string) (pStatus : string) (st : St) :
  equalUpToCase pStatus "draft" ∨ equalUpToCase pStatus "active" ->
  PCE.LabelGroups
    (pceOf (resultOf (GetLabelGroups p queryParameters pStatus st))) =
  indexLabelGroups
    (PCE.LabelGroupsSlice
       (pceOf (resultOf (GetLabelGroups p queryParameters pStatus st)))).
Proof.
  intros Hok. rewrite (GetLabelGroups_valid _ _ _ _ Hok).
  by destruct (500 <=? _)%Z.
Qed.

Lemma GetLabelGroups_valid_trace (p : PCE.t)
    (queryParameters : gmap string string) (pStatus : string) (st : St) :
  equalUpToCase pStatus "draft" ∨ equalUpToCase pStatus "active" ->
  ∃ tr,
    traceOf (GetLabelGroups p queryParameters pStatus st) =
    st.2 ++
    EvGetCollection
      ("/sec_policy/" +:+ strings_ToLower pStatus +:+ "/label_groups")
      false queryParameters :: tr.
Proof.
  intros Hok. rewrite (GetLabelGroups_valid _ _ _ _ Hok).
  destruct (500 <=? _)%Z; unfold traceOf; cbn [fst snd].
  - eexists. by rewrite <- app_assoc.
  - by eexists.
Qed.

(** Past validation, the PCE, the response, the error and the world are
    those the last collection call left, with the lookup table rebuilt from
    the slice. *)
Lemma GetLabelGroups_valid_last (p : PCE.t)
    (queryParameters : gmap string string) (pStatus : string) (st : St) :
  equalUpToCase pStatus "draft" ∨ equalUpToCase pStatus "active" ->
  resultOf (GetLabelGroups p queryParameters pStatus st) =
  (PCE.set_LabelGroups (lastCall p queryParameters pStatus st.1).1.2
     (indexLabelGroups (fetchedSlice p queryParameters pStatus st.1)),
   (lastCall p queryParameters pStatus st.1).1.1.1,
   (lastCall p queryParameters pStatus st.1).1.1.2)
  ∧ worldOf (GetLabelGroups p queryParameters pStatus st)
    = (lastCall p queryParameters pStatus st.1).2.
Proof.
  intros Hok. rewrite (GetLabelGroups_valid _ _ _ _ Hok).
  unfold fetchedSlice, lastCall, secondCall, firstCall, endpointOf.
  by destruct (500 <=? _)%Z.
Qed.

(** ** The lookup table *)

(** An entry of the table built on top of [m] was in [m] already, or is a
    group of the slice under its href, its name, or its key and name. *)
Lemma index_lookup (slice : list LabelGroup.t) (m : gmap string LabelGroup.t)
    (k : string) (lg : LabelGroup.t) :
  foldl (fun m lg =>
           <[LabelGroup.Key lg +:+ LabelGroup.Name lg := lg]>
             (<[LabelGroup.Name lg := lg]>
                (<[LabelGroup.Href lg := lg]> m)))
        m slice !! k = Some lg ->
  m !! k = Some lg
  ∨ (lg ∈ slice
     ∧ (k = LabelGroup.Href lg ∨ k = LabelGroup.Name lg
        ∨ k = LabelGroup.Key lg +:+ LabelGroup.Name lg)).
Proof.
  revert m. induction slice as [|g rest IH]; intros m Hk; [by left|].
  cbn [foldl] in Hk. apply IH in Hk as [Hk|[Hin Hkey]].
  - rewrite !lookup_insert in Hk.
    repeat case_decide; simplify_eq; try (right; split; [by left | tauto]).
    by left.
  - right. split; [by right | exact Hkey].
Qed.

Lemma indexLabelGroups_lookup (slice : list LabelGroup.t) (k : string)
    (lg : LabelGroup.t) :
  indexLabelGroups slice !! k = Some lg ->
  lg ∈ slice
  ∧ (k = LabelGroup.Href lg ∨ k = LabelGroup.Name lg
     ∨ k = LabelGroup.Key lg +:+ LabelGroup.Name lg).
Proof.
  intros Hk. apply index_lookup in Hk as [Hk|Hk]; [|exact Hk].
  by rewrite lookup_empty in Hk.
Qed.

(** C4 (as amended).  A call that fails validation leaves the lookup table
    as it was; a call that passes validation returns the PCE that the last
    collection call left, with the lookup table replaced by the one built
    from the slice as that call left it, and returns the error of that call,
    whatever it is. *)
Theorem GetLabelGroups_table_replacement (p : PCE.t)
    (queryParameters : gmap string string) (pStatus : string) (st : St) :
  (¬ (equalUpToCase pStatus "draft" ∨ equalUpToCase pStatus "active") →
   PCE.LabelGroups
     (pceOf (resultOf (GetLabelGroups p queryParameters pStatus st))) =
   PCE.LabelGroups p)
  ∧ (equalUpToCase pStatus "draft" ∨ equalUpToCase pStatus "active" →
     pceOf (resultOf (GetLabelGroups p queryParameters pStatus st)) =
     PCE.set_LabelGroups (lastCall p queryParameters pStatus st.1).1.2
       (indexLabelGroups (fetchedSlice p queryParameters pStatus st.1))
     ∧ errOf (resultOf (GetLabelGroups p queryParameters pStatus st)) =
       (lastCall p queryParameters pStatus st.1).1.1.2).
Proof.
  split.
  - intros Hbad. by rewrite (GetLabelGroups_invalid _ _ _ _ Hbad).
  - intros Hok.
    destruct (GetLabelGroups_valid_last p queryParameters pStatus st Hok)
      as [-> _].
    split; reflexivity.
Qed.

(** C5 (as amended).  After a call that passes validation, every entry of
    the lookup table is a group of the slice the collection calls left,
    stored under its own href, its name, or its key followed by its name;
    so when no group of that slice carries as name (or key and name) the
    href of a group with another href, every entry keyed by the href of a
    group has that href. *)
Theorem GetLabelGroups_href_entries (p : PCE.t)
    (queryParameters : gmap string string) (pStatus : string) (st : St)
    (k : string) (lg : LabelGroup.t) :
  equalUpToCase pStatus "draft" ∨ equalUpToCase pStatus "active" ->
  PCE.LabelGroups
    (pceOf (resultOf (GetLabelGroups p queryParameters pStatus st))) !! k
  = Some lg ->
  lg ∈ fetchedSlice p queryParameters pStatus st.1
  ∧ (k = LabelGroup.Href lg ∨ k = LabelGroup.Name lg
     ∨ k = LabelGroup.Key lg +:+ LabelGroup.Name lg)
  ∧ (hrefsNotShadowed (fetchedSlice p queryParameters pStatus st.1) →
     ∀ g, g ∈ fetchedSlice p queryParameters pStatus st.1 →
          LabelGroup.Href g = k → LabelGroup.Href lg = k).
Proof.
  intros Hok.
  destruct (GetLabelGroups_valid_last p queryParameters pStatus st Hok)
    as [-> _].
  unfold pceOf. cbn [fst PCE.set_LabelGroups PCE.LabelGroups].
  intros [Hin Hkey]%indexLabelGroups_lookup.
  split; [exact Hin|]. split; [exact Hkey|].
  intros Hns g Hg <-. destruct Hkey as [Hk|Hk]; [done|].
  apply (Hns g lg Hg Hin). destruct Hk as [Hk|Hk]; [by left | by right].
Qed.

End Collection.

(** *** Instances on the example networks *)

Lemma staging_not_valid :
  ¬ (@equalUpToCase noUnicode "staging" "draft"
     ∨ @equalUpToCase noUnicode "staging" "active").
Proof. intros [Hc|Hc]; vm_compute in Hc; discriminate. Qed.

Lemma GetLabelGroups_table_replacement_witness :
  PCE.LabelGroups
    (pceOf (resultOf (@GetLabelGroups twoGroups noUnicode filled ∅ "staging"
                        (0%nat, [])))) =
  PCE.LabelGroups filled
  ∧ pceOf (resultOf (@GetLabelGroups twoGroups noUnicode filled ∅ "Draft"
                       (0%nat, []))) =
    PCE.mk "pce.example.com:8443" (indexLabelGroups [groupA; groupB])
           [groupA; groupB]
  ∧ errOf (resultOf (@GetLabelGroups twoGroups noUnicode filled ∅ "Draft"
                       (0%nat, []))) = None.
Proof.
  split.
  - apply (proj1 (@GetLabelGroups_table_replacement twoGroups noUnicode
                    filled ∅ "staging" (0%nat, []))).
    exact staging_not_valid.
  - apply (proj2 (@GetLabelGroups_table_replacement twoGroups noUnicode
                    filled ∅ "Draft" (0%nat, []))).
    left. reflexivity.
Defined.

(** C4 as stated fails: the first collection call returns 500 groups, the
    asynchronous call that follows fails; [GetLabelGroups] returns that error
    and the lookup table filled earlier has been replaced by an empty one. *)
Lemma GetLabelGroups_error_replaces_table :
  errOf (resultOf (@GetLabelGroups asyncFails noUnicode filled ∅ "draft"
                     (0%nat, []))) =
  Some "dial tcp: connection refused"
  ∧ PCE.LabelGroups filled !! "/old" = Some (group "/old" ["l0"] [])
  ∧ PCE.LabelGroups
      (pceOf (resultOf (@GetLabelGroups asyncFails noUnicode filled ∅ "draft"
                          (0%nat, [])))) !! "/old" = None
  ∧ PCE.LabelGroups
      (pceOf (resultOf (@GetLabelGroups asyncFails noUnicode filled ∅ "draft"
                          (0%nat, [])))) ≠
    PCE.LabelGroups filled.
Proof.
  split; [vm_compute; reflexivity|].
  split; [vm_compute; reflexivity|].
  split; [vm_compute; reflexivity|].
  intros Heq. apply (f_equal (fun m => m !! "/old")) in Heq.
  vm_compute in Heq. discriminate.
Qed.

Lemma twoGroups_not_shadowed : hrefsNotShadowed [groupA; groupB].
Proof.
  intros g g' Hg Hg' Hname.
  repeat (apply elem_of_cons in Hg as [->|Hg]);
    [| |by apply elem_of_nil in Hg];
    (repeat (apply elem_of_cons in Hg' as [->|Hg']);
     [| |by apply elem_of_nil in Hg']);
    first [reflexivity | destruct Hname as [Hname|Hname]; discriminate Hname].
Qed.

Lemma GetLabelGroups_href_entries_witness :
  groupA ∈ @fetchedSlice twoGroups noUnicode filled ∅ "draft" 0%nat
  ∧ ("/a" = LabelGroup.Href groupA ∨ "/a" = LabelGroup.Name groupA
     ∨ "/a" = LabelGroup.Key groupA +:+ LabelGroup.Name groupA)
  ∧ hrefsNotShadowed
      (@fetchedSlice twoGroups noUnicode filled ∅ "draft" 0%nat)
  ∧ (∀ g, g ∈ @fetchedSlice twoGroups noUnicode filled ∅ "draft" 0%nat →
          LabelGroup.Href g = "/a" → LabelGroup.Href groupA = "/a").
Proof.
  destruct (@GetLabelGroups_href_entries twoGroups noUnicode filled ∅ "draft"
              (0%nat, []) "/a" groupA) as (Hin & Hkey & Hhref).
  - left. reflexivity.
  - vm_compute. reflexivity.
  - split; [exact Hin|]. split; [exact Hkey|].
    split; [exact twoGroups_not_shadowed|].
    exact (Hhref twoGroups_not_shadowed).
Defined.

(** C5 as stated fails: the second group of the collection is named after
    the href of the first, and ends up stored under that href. *)
Lemma GetLabelGroups_href_shadowed :
  ∃ g lg,
    g ∈ PCE.LabelGroupsSlice
          (pceOf (resultOf (@GetLabelGroups shadowing noUnicode filled ∅
                              "active" (0%nat, []))))
    ∧ PCE.LabelGroups
        (pceOf (resultOf (@GetLabelGroups shadowing noUnicode filled ∅
                            "active" (0%nat, [])))) !! LabelGroup.Href g
      = Some lg
    ∧ LabelGroup.Href g = "/a" ∧ LabelGroup.Href lg = "/b".
Proof.
  exists (LabelGroup.mk "/a" "first" None "" None None None None None),
         (LabelGroup.mk "/b" "/a" None "" None None None None None).
  split; [by left|].
  split; [vm_compute; reflexivity|].
  split; reflexivity.
Qed.

(** ** [httpReq] *)

Lemma sleepsOf_app (tr1 tr2 : list Event) :
  sleepsOf (tr1 ++ tr2) = sleepsOf tr1 ++ sleepsOf tr2.
Proof. apply omap_app. Qed.

Lemma exchangesOf_app (tr1 tr2 : list Event) :
  exchangesOf (tr1 ++ tr2) = (exchangesOf tr1 + exchangesOf tr2)%nat.
Proof. unfold exchangesOf. by rewrite omap_app, length_app. Qed.

Section Orchestrator.
Context `{Network}.
Context (action apiURL body : string) (async : bool)
        (headers : gmap string string).

(** One turn of the loop on a 429 answer, below the retry bound. *)
Lemma httpReqLoop_retry (fuel : nat) (api : APIResponse.t) (err : error)
    (retry : Z) (st : St) :
  APIResponse.StatusCode api = 429%Z -> (retry <= 6)%Z ->
  let next := httpSetup action apiURL body async headers
                (Sleep (30 * time_Second) st.1) in
  httpReqLoop (S fuel) action apiURL body async headers api err retry st =
  httpReqLoop fuel action apiURL body async headers next.1.1 next.1.2
    (retry + 1)
    (next.2,
     (st.2 ++ [EvSleep (30 * time_Second)])
       ++ [EvHttpSetup action apiURL body async headers]).
Proof.
  intros H429 Hretry next. cbn [httpReqLoop]. rewrite H429. cbn.
  destruct (retry >? 6)%Z eqn:E; [lia|].
  unfold bind, time_Sleep, doHttpSetup. cbn. fold next.
  by destruct next as [[api' err'] w'].
Qed.

Lemma httpReqLoop_give_up (fuel : nat) (api : APIResponse.t) (err : error)
    (retry : Z) (st : St) :
  APIResponse.StatusCode api = 429%Z -> (6 < retry)%Z ->
  httpReqLoop (S fuel) action apiURL body async headers api err retry st =
  (Some (api, rateLimitError), st).
Proof.
  intros H429 Hretry. cbn [httpReqLoop]. rewrite H429. cbn.
  destruct (retry >? 6)%Z eqn:E; [reflexivity|lia].
Qed.

Lemma httpReqLoop_other (fuel : nat) (api : APIResponse.t) (err : error)
    (retry : Z) (st : St) :
  APIResponse.StatusCode api ≠ 429%Z ->
  httpReqLoop fuel action apiURL body async headers api err retry st =
  (Some (api, err), st).
Proof.
  intros Hne. destruct fuel; cbn [httpReqLoop];
    by destruct (Z.eqb_spec (APIResponse.StatusCode api) 429%Z).
Qed.

(** The loop always ends: eight turns are enough from [retry = 0]. *)
Lemma httpReqLoop_total (fuel : nat) (api : APIResponse.t) (err : error)
    (retry : Z) (st : St) :
  (1 <= fuel)%nat -> (8 <= Z.of_nat fuel + retry)%Z ->
  ∃ r, resultOf (httpReqLoop fuel action apiURL body async headers
                   api err retry st) = Some r.
Proof.
  revert api err retry st.
  induction fuel as [|fuel IH]; intros api err retry st Hfuel Hsum; [lia|].
  destruct (Z.eq_dec (APIResponse.StatusCode api) 429%Z) as [H429|Hne].
  - destruct (Z_le_gt_dec retry 6%Z) as [Hle|Hgt].
    + rewrite (httpReqLoop_retry _ _ _ _ _ H429 Hle). apply IH; lia.
    + rewrite httpReqLoop_give_up; [by eexists | done | lia].
  - rewrite httpReqLoop_other; [by eexists | done].
Qed.

Lemma httpReq_total (fuel : nat) (st : St) :
  (8 <= fuel)%nat ->
  ∃ r, resultOf (httpReq fuel action apiURL body async headers st) = Some r.
Proof.
  intros Hfuel. unfold httpReq, bind, doHttpSetup.
  destruct (httpSetup _ _ _ _ _ _) as [[api err] w].
  apply httpReqLoop_total; lia.
Qed.

(** Every pause lasts 30 seconds, and from [retry] on there are at most
    [7 - retry] of them. *)
Lemma httpReqLoop_sleeps (fuel : nat) (api : APIResponse.t) (err : error)
    (retry : Z) (st : St) :
  (0 <= retry <= 7)%Z ->
  ∃ n : nat,
    (Z.of_nat n + retry <= 7)%Z ∧
    sleepsOf (traceOf (httpReqLoop fuel action apiURL body async headers
                         api err retry st)) =
    sleepsOf st.2 ++ replicate n (30 * time_Second)%Z.
Proof.
  revert api err retry st.
  induction fuel as [|fuel IH]; intros api err retry st Hretry.
  - exists 0%nat. split; [lia|]. cbn [httpReqLoop].
    destruct (_ =? _)%Z; cbn; by rewrite app_nil_r.
  - destruct (Z.eq_dec (APIResponse.StatusCode api) 429%Z) as [H429|Hne].
    + destruct (Z_le_gt_dec retry 6%Z) as [Hle|Hgt].
      * rewrite (httpReqLoop_retry _ _ _ _ _ H429 Hle).
        edestruct IH as (n & Hn & ->); [|exists (S n); split; [lia|]].
        { lia. }
        cbn [snd]. rewrite !sleepsOf_app. cbn.
        by rewrite app_nil_r, <- app_assoc.
      * rewrite httpReqLoop_give_up; [|done|lia].
        exists 0%nat. split; [lia|]. cbn. by rewrite app_nil_r.
    + rewrite httpReqLoop_other; [|done].
      exists 0%nat. split; [lia|]. cbn. by rewrite app_nil_r.
Qed.

(** When every answer is 429 the call gives up with the rate-limit error
    after seven pauses. *)
Lemma httpReqLoop_all_429 (fuel : nat) (api : APIResponse.t) (err : error)
    (retry : Z) (st : St) :
  (∀ w, APIResponse.StatusCode
          (httpSetup action apiURL body async headers w).1.1 = 429%Z) ->
  APIResponse.StatusCode api = 429%Z ->
  (0 <= retry <= 7)%Z -> (1 <= fuel)%nat -> (8 <= Z.of_nat fuel + retry)%Z ->
  ∃ api',
    resultOf (httpReqLoop fuel action apiURL body async headers
                api err retry st) = Some (api', rateLimitError) ∧
    sleepsOf (traceOf (httpReqLoop fuel action apiURL body async headers
                         api err retry st)) =
    sleepsOf st.2 ++ replicate (Z.to_nat (7 - retry)) (30 * time_Second)%Z.
Proof.
  intros Hall. revert api err retry st.
  induction fuel as [|fuel IH]; intros api err retry st H429 Hretry Hfuel Hsum;
    [lia|].
  destruct (Z_le_gt_dec retry 6%Z) as [Hle|Hgt].
  - rewrite (httpReqLoop_retry _ _ _ _ _ H429 Hle).
    edestruct IH as (api' & -> & ->); [apply Hall | | | |]; try lia.
    exists api'. split; [done|]. cbn [snd]. rewrite !sleepsOf_app. cbn.
    rewrite app_nil_r, <- app_assoc. f_equal.
    replace (Z.to_nat (7 - retry)) with (S (Z.to_nat (7 - (retry + 1))))
      by lia.
    reflexivity.
  - rewrite httpReqLoop_give_up; [|done|lia]. exists api. split; [done|].
    replace (Z.to_nat (7 - retry)) with 0%nat by lia.
    cbn. by rewrite app_nil_r.
Qed.

Lemma httpReq_all_429 (fuel : nat) (st : St) :
  (∀ w, APIResponse.StatusCode
          (httpSetup action apiURL body async headers w).1.1 = 429%Z) ->
  (8 <= fuel)%nat ->
  ∃ api',
    resultOf (httpReq fuel action apiURL body async headers st)
    = Some (api', rateLimitError) ∧
    sleepsOf (traceOf (httpReq fuel action apiURL body async headers st)) =
    sleepsOf st.2 ++ replicate 7 (30 * time_Second)%Z.
Proof.
  intros Hall Hfuel. unfold httpReq, bind, doHttpSetup.
  pose proof (Hall st.1) as H0.
  destruct (httpSetup action apiURL body async headers st.1)
    as [[api err] w].
  edestruct (httpReqLoop_all_429 fuel api err 0
               (w, st.2 ++ [EvHttpSetup action apiURL body async headers]))
    as (api' & -> & ->); [exact Hall | exact H0 | lia..|].
  exists api'. split; [done|]. cbn [snd]. rewrite sleepsOf_app. cbn.
  by rewrite app_nil_r.
Qed.

End Orchestrator.

(** C3.  Against a server that answers 429 to every exchange, [httpReq]
    returns the rate-limit error after eight exchanges and seven pauses of
    30 seconds: one retry more than the six of the claim and of the error
    message itself (the test [retry > 6] lets a seventh retry through). *)
Theorem httpReq_always_429_seven_retries :
  resultOf (@httpReq always429 8 "GET" "https://pce/api/v2/labels" ""
              false ∅ (0%nat, [])) =
  Some (APIResponse.mk "" 429 [] "" [], rateLimitError)
  ∧ sleepsOf (traceOf (@httpReq always429 8 "GET" "https://pce/api/v2/labels"
                         "" false ∅ (0%nat, []))) =
    replicate 7 (30 * time_Second)%Z
  ∧ exchangesOf (traceOf (@httpReq always429 8 "GET"
                            "https://pce/api/v2/labels" "" false ∅
                            (0%nat, []))) = 8%nat.
Proof. repeat split; vm_compute; reflexivity. Qed.

(** Three answers 429 and then 200: the call succeeds after three pauses. *)
Example httpReq_thrice_429 :
  resultOf (@httpReq thrice429 8 "GET" "https://pce/api/v2/labels" ""
              false ∅ (0%nat, [])) =
  Some (APIResponse.mk "" 200 [] "" [], None)
  ∧ sleepsOf (traceOf (@httpReq thrice429 8 "GET" "https://pce/api/v2/labels"
                         "" false ∅ (0%nat, []))) =
    replicate 3 (30 * time_Second)%Z.
Proof. split; vm_compute; reflexivity. Qed.

(** ** Letter case *)

Lemma byteVal_range (c : ascii) : (0 <= byteVal c < 256)%Z.
Proof. unfold byteVal. pose proof (N_ascii_bounded c). lia. Qed.

Lemma byteVal_inj (c d : ascii) : byteVal c = byteVal d -> c = d.
Proof.
  unfold byteVal. intros Heq%N2Z.inj.
  by rewrite <- (ascii_N_embedding c), <- (ascii_N_embedding d), Heq.
Qed.

Lemma isUpperASCII_spec (c : ascii) :
  isUpperASCII c = true ↔ (65 <= byteVal c <= 90)%Z.
Proof. unfold isUpperASCII. rewrite andb_true_iff, !Z.leb_le. tauto. Qed.

Lemma byteVal_lowerByte (c : ascii) :
  byteVal (lowerByte c) =
  if isUpperASCII c then (byteVal c + 32)%Z else byteVal c.
Proof.
  unfold lowerByte. destruct (isUpperASCII c) eqn:E; [|reflexivity].
  apply isUpperASCII_spec in E. unfold byteVal in *.
  rewrite N_ascii_embedding; lia.
Qed.

Lemma lowerByte_eq_iff (c d : ascii) :
  lowerByte c = lowerByte d ↔ sameLetter c d.
Proof.
  unfold sameLetter. split.
  - intros Heq%(f_equal byteVal). rewrite !byteVal_lowerByte in Heq.
    destruct (isUpperASCII c) eqn:Ec, (isUpperASCII d) eqn:Ed;
      try apply isUpperASCII_spec in Ec; try apply isUpperASCII_spec in Ed;
      lia.
  - intros Hs. apply byteVal_inj. rewrite !byteVal_lowerByte.
    destruct (isUpperASCII c) eqn:Ec, (isUpperASCII d) eqn:Ed;
      try apply isUpperASCII_spec in Ec; try apply isUpperASCII_spec in Ed;
      try lia.
    + assert (¬ (65 <= byteVal d <= 90)%Z) as Hd
        by (rewrite <- isUpperASCII_spec; congruence). lia.
    + assert (¬ (65 <= byteVal c <= 90)%Z) as Hc
        by (rewrite <- isUpperASCII_spec; congruence). lia.
    + assert (¬ (65 <= byteVal c <= 90)%Z) as Hc
        by (rewrite <- isUpperASCII_spec; congruence).
      assert (¬ (65 <= byteVal d <= 90)%Z) as Hd
        by (rewrite <- isUpperASCII_spec; congruence). lia.
Qed.

Lemma mapBytes_lowerByte_id (s : string) :
  hasUpper s = false -> mapBytes lowerByte s = s.
Proof.
  induction s as [|c s IH]; [done|]. cbn.
  intros [Hc Hs]%orb_false_iff. unfold lowerByte at 1. by rewrite Hc, IH.
Qed.

(** On ASCII strings [strings.ToLower] lowers every byte. *)
Lemma strings_ToLower_ASCII `{UnicodeTables} (s : string) :
  isASCII s = true -> strings_ToLower s = mapBytes lowerByte s.
Proof.
  intros Hs. unfold strings_ToLower. rewrite Hs.
  destruct (hasUpper s) eqn:E; [reflexivity|].
  by rewrite mapBytes_lowerByte_id.
Qed.

Lemma mapBytes_lowerByte_eq_iff (s t : string) :
  mapBytes lowerByte s = mapBytes lowerByte t ↔ sameUpToCaseASCII s t.
Proof.
  revert t. induction s as [|c s IH]; intros [|d t]; cbn; try done.
  rewrite <- IH, <- lowerByte_eq_iff. split.
  - by intros [= -> ->].
  - by intros [-> ->].
Qed.

(** For ASCII strings, [equalUpToCase] is equality up to the case of each
    letter. *)
Lemma equalUpToCase_ASCII `{UnicodeTables} (s t : string) :
  isASCII s = true -> isASCII t = true ->
  equalUpToCase s t ↔ sameUpToCaseASCII s t.
Proof.
  intros Hs Ht. unfold equalUpToCase.
  rewrite !strings_ToLower_ASCII by done. apply mapBytes_lowerByte_eq_iff.
Qed.

(** ** [GetLabelGroups]: the status string *)

Lemma sameLetter_ASCII (c d : ascii) :
  sameLetter c d -> (byteVal d <? utf8_RuneSelf)%Z = true ->
  (byteVal c <? utf8_RuneSelf)%Z = true.
Proof.
  unfold sameLetter, utf8_RuneSelf. rewrite !Z.ltb_lt. lia.
Qed.

Lemma sameUpToCaseASCII_isASCII (s t : string) :
  sameUpToCaseASCII s t -> isASCII t = true -> isASCII s = true.
Proof.
  revert t. induction s as [|c s IH]; intros [|d t]; cbn; try done.
  intros [Hcd Hst] [Hd Ht]%andb_true_iff.
  apply andb_true_iff. split; [by eapply sameLetter_ASCII | by eapply IH].
Qed.

Lemma sameUpToCaseASCII_lower `{UnicodeTables} (s t : string) :
  isASCII t = true -> hasUpper t = false ->
  sameUpToCaseASCII s t -> strings_ToLower s = t.
Proof.
  intros Ht Hlow Hst.
  pose proof (sameUpToCaseASCII_isASCII s t Hst Ht) as Hs.
  apply (equalUpToCase_ASCII s t Hs Ht) in Hst. unfold equalUpToCase in Hst.
  rewrite Hst. unfold strings_ToLower. by rewrite Ht, Hlow.
Qed.

Section Status.
Context `{Network} `{UnicodeTables}.

(** C9 (as amended).  A status that is "draft" or "active" up to the case of
    its letters passes validation: the call goes on to the collection
    request, on the lower-case endpoint.  A status of ASCII bytes that is
    neither makes the call return the error "invalid pStatus" with the PCE,
    the world and the trace of events untouched (no call was made).  A
    status with a byte outside ASCII is judged on Go's Unicode lower-casing
    of it: it passes when that is "draft" or "active", and is refused in the
    same way otherwise. *)
Theorem GetLabelGroups_validates_pStatus (p : PCE.t)
    (queryParameters : gmap string string) (pStatus : string) (st : St) :
  (sameUpToCaseASCII pStatus "draft" →
   ∃ tr,
     traceOf (GetLabelGroups p queryParameters pStatus st) =
     st.2 ++
     EvGetCollection "/sec_policy/draft/label_groups" false queryParameters
     :: tr)
  ∧ (sameUpToCaseASCII pStatus "active" →
     ∃ tr,
       traceOf (GetLabelGroups p queryParameters pStatus st) =
       st.2 ++
       EvGetCollection "/sec_policy/active/label_groups" false
         queryParameters
       :: tr)
  ∧ (isASCII pStatus = true →
     ¬ sameUpToCaseASCII pStatus "draft" →
     ¬ sameUpToCaseASCII pStatus "active" →
     GetLabelGroups p queryParameters pStatus st =
     ((p, APIResponse.zero, Some "invalid pStatus"), st))
  ∧ (isASCII pStatus = false →
     (MapToLower pStatus = "draft" ∨ MapToLower pStatus = "active" →
      ∃ tr,
        traceOf (GetLabelGroups p queryParameters pStatus st) =
        st.2 ++
        EvGetCollection
          ("/sec_policy/" +:+ MapToLower pStatus +:+ "/label_groups")
          false queryParameters
        :: tr)
     ∧ (MapToLower pStatus ≠ "draft" → MapToLower pStatus ≠ "active" →
        GetLabelGroups p queryParameters pStatus st =
        ((p, APIResponse.zero, Some "invalid pStatus"), st))).
Proof.
  split; [|split; [|split]].
  - intros Hsame.
    pose proof (sameUpToCaseASCII_lower pStatus "draft" eq_refl eq_refl Hsame)
      as Hlow.
    destruct (GetLabelGroups_valid_trace p queryParameters pStatus st)
      as (tr & Htr); [left; exact Hlow|].
    exists tr. rewrite Htr, Hlow. reflexivity.
  - intros Hsame.
    pose proof (sameUpToCaseASCII_lower pStatus "active" eq_refl eq_refl
                  Hsame) as Hlow.
    destruct (GetLabelGroups_valid_trace p queryParameters pStatus st)
      as (tr & Htr); [right; exact Hlow|].
    exists tr. rewrite Htr, Hlow. reflexivity.
  - intros Hascii Hd Ha. apply GetLabelGroups_invalid.
    intros [Hc|Hc].
    + apply (equalUpToCase_ASCII pStatus "draft" Hascii eq_refl) in Hc. tauto.
    + apply (equalUpToCase_ASCII pStatus "active" Hascii eq_refl) in Hc. tauto.
  - intros Hnon.
    assert (strings_ToLower pStatus = MapToLower pStatus) as Hmap
      by (unfold strings_ToLower; by rewrite Hnon).
    split.
    + intros Hok.
      destruct (GetLabelGroups_valid_trace p queryParameters pStatus st)
        as (tr & Htr).
      { unfold equalUpToCase. rewrite Hmap. exact Hok. }
      exists tr. by rewrite Htr, Hmap.
    + intros Hd Ha. apply GetLabelGroups_invalid.
      unfold equalUpToCase. rewrite Hmap. by intros [Hc|Hc].
Qed.

End Status.

Lemma GetLabelGroups_validates_pStatus_witness :
  (∃ tr,
     traceOf (@GetLabelGroups oneGroup noUnicode filled ∅ "Draft"
                (0%nat, [])) =
     [] ++ EvGetCollection "/sec_policy/draft/label_groups" false ∅ :: tr)
  ∧ (∃ tr,
       traceOf (@GetLabelGroups oneGroup noUnicode filled ∅ "ACTIVE"
                  (0%nat, [])) =
       [] ++ EvGetCollection "/sec_policy/active/label_groups" false ∅ :: tr)
  ∧ @GetLabelGroups oneGroup noUnicode filled ∅ "staging" (0%nat, []) =
    ((filled, APIResponse.zero, Some "invalid pStatus"), (0%nat, []))
  ∧ ∃ tr,
      traceOf (@GetLabelGroups oneGroup dottedI filled ∅ activeDotted
                 (0%nat, [])) =
      [] ++ EvGetCollection
              ("/sec_policy/" +:+ @MapToLower dottedI activeDotted
               +:+ "/label_groups") false ∅
      :: tr.
Proof.
  split; [|split; [|split]].
  - apply (proj1 (@GetLabelGroups_validates_pStatus oneGroup noUnicode
                    filled ∅ "Draft" (0%nat, []))).
    apply mapBytes_lowerByte_eq_iff. reflexivity.
  - apply (proj1 (proj2 (@GetLabelGroups_validates_pStatus oneGroup noUnicode
                           filled ∅ "ACTIVE" (0%nat, [])))).
    apply mapBytes_lowerByte_eq_iff. reflexivity.
  - apply (proj1 (proj2 (proj2 (@GetLabelGroups_validates_pStatus oneGroup
                                  noUnicode filled ∅ "staging"
                                  (0%nat, []))))).
    + reflexivity.
    + intros Hc. apply mapBytes_lowerByte_eq_iff in Hc. discriminate Hc.
    + intros Hc. apply mapBytes_lowerByte_eq_iff in Hc. discriminate Hc.
  - apply (proj1 (proj2 (proj2 (proj2
             (@GetLabelGroups_validates_pStatus oneGroup dottedI filled ∅
                activeDotted (0%nat, [])))) eq_refl)).
    right. reflexivity.
Defined.

(** C9 as stated fails: "ACTIVE" written with U+0130 for its I is not
    "active" (nor "draft") up to the case of letters, the strings do not even
    have the same length, yet Go lower-cases it to "active": validation
    passes and the collection request is made. *)
Lemma GetLabelGroups_accepts_dotted_I :
  String.length activeDotted = 7%nat
  ∧ ¬ sameUpToCaseASCII activeDotted "draft"
  ∧ ¬ sameUpToCaseASCII activeDotted "active"
  ∧ traceOf (@GetLabelGroups oneGroup dottedI filled ∅ activeDotted
               (0%nat, [])) =
    [EvGetCollection "/sec_policy/active/label_groups" false ∅]
  ∧ errOf (resultOf (@GetLabelGroups oneGroup dottedI filled ∅ activeDotted
                       (0%nat, []))) = None.
Proof.
  split; [reflexivity|].
  split;
    [intros Hc; apply mapBytes_lowerByte_eq_iff in Hc; discriminate Hc|].
  split;
    [intros Hc; apply mapBytes_lowerByte_eq_iff in Hc; discriminate Hc|].
  split; vm_compute; reflexivity.
Qed.

(** ** [cleanFQDN] *)

Lemma length_substring (s : string) (n m : nat) :
  (n + m <= String.length s)%nat -> String.length (substring n m s) = m.
Proof.
  revert n m. induction s as [|c s IH]; intros [|n] [|m] Hle;
    cbn in *; try lia; try reflexivity.
  - f_equal. apply IH. lia.
  - apply IH. lia.
  - apply IH. lia.
Qed.

Lemma length_TrimSuffix (s suffix : string) :
  String.length (strings_TrimSuffix s suffix) =
  if strings_HasSuffix s suffix
  then (String.length s - String.length suffix)%nat
  else String.length s.
Proof.
  unfold strings_TrimSuffix. destruct (strings_HasSuffix s suffix); [|done].
  unfold sliceStr. rewrite length_substring; lia.
Qed.

Lemma length_TrimPrefix (s prefix : string) :
  String.length (strings_TrimPrefix s prefix) =
  if strings_HasPrefix s prefix
  then (String.length s - String.length prefix)%nat
  else String.length s.
Proof.
  unfold strings_TrimPrefix.
  destruct (strings_HasPrefix s prefix) eqn:E; [|done].
  unfold strings_HasPrefix in E. apply andb_true_iff in E as [Hlen _].
  apply Nat.leb_le in Hlen. unfold sliceStr. rewrite length_substring; lia.
Qed.

Lemma HasSuffix_length (s suffix : string) :
  strings_HasSuffix s suffix = true ->
  (String.length suffix <= String.length s)%nat.
Proof.
  unfold strings_HasSuffix. intros [Hlen _]%andb_true_iff.
  by apply Nat.leb_le.
Qed.

Lemma HasPrefix_length (s prefix : string) :
  strings_HasPrefix s prefix = true ->
  (String.length prefix <= String.length s)%nat.
Proof.
  unfold strings_HasPrefix. intros [Hlen _]%andb_true_iff.
  by apply Nat.leb_le.
Qed.

Lemma cleanFQDN_result (p : PCE.t) :
  (cleanFQDN p).2 =
  strings_TrimPrefix (strings_TrimSuffix (PCE.FQDN p) "/") "https://".
Proof. reflexivity. Qed.

(** C10 (as amended).  The value [cleanFQDN] returns is the one it stores in
    [p.FQDN]; a second application returns the same value exactly when the
    first result neither ends in "/" nor starts with "https://" (one
    trailing slash and then one leading "https://" are removed per call). *)
Theorem cleanFQDN_stored_and_stable (p : PCE.t) :
  PCE.FQDN (cleanFQDN p).1 = (cleanFQDN p).2
  ∧ ((cleanFQDN (cleanFQDN p).1).2 = (cleanFQDN p).2
     ↔ strings_HasSuffix (cleanFQDN p).2 "/" = false
       ∧ strings_HasPrefix (cleanFQDN p).2 "https://" = false).
Proof.
  split; [reflexivity|].
  rewrite (cleanFQDN_result (cleanFQDN p).1).
  change (PCE.FQDN (cleanFQDN p).1) with (cleanFQDN p).2.
  generalize (cleanFQDN p).2. intros r. split.
  - intros Heq%(f_equal String.length).
    rewrite length_TrimPrefix, length_TrimSuffix in Heq.
    destruct (strings_HasSuffix r "/") eqn:Es.
    + apply HasSuffix_length in Es. cbn in Es.
      destruct (strings_HasPrefix _ _); cbn in Heq; lia.
    + unfold strings_TrimSuffix in Heq. rewrite Es in Heq.
      destruct (strings_HasPrefix r "https://") eqn:Ep; [|done].
      apply HasPrefix_length in Ep. cbn in Ep, Heq. lia.
  - intros [Es Ep]. unfold strings_TrimSuffix. rewrite Es.
    unfold strings_TrimPrefix. by rewrite Ep.
Qed.

(** C10 as stated fails: with two trailing slashes the second application
    removes the slash that the first one left. *)
Lemma cleanFQDN_not_idempotent :
  (cleanFQDN (PCE.mk "pce.example.com//" ∅ [])).2 = "pce.example.com/"
  ∧ (cleanFQDN (cleanFQDN (PCE.mk "pce.example.com//" ∅ [])).1).2
    = "pce.example.com"
  ∧ (cleanFQDN (cleanFQDN (PCE.mk "pce.example.com//" ∅ [])).1).2
    ≠ (cleanFQDN (PCE.mk "pce.example.com//" ∅ [])).2.
Proof. repeat split; try reflexivity. vm_compute. discriminate. Qed.

Example cleanFQDN_usual :
  (cleanFQDN (PCE.mk "https://pce.example.com:8443/" ∅ [])).2
  = "pce.example.com:8443".
Proof. reflexivity. Qed.

(** * Further properties *)

(** ** Expansion: the groups that are visited *)

Lemma nextRound_nil (p : PCE.t) : nextRound p [] = [].
Proof. reflexivity. Qed.

Lemma iter_nextRound_nil (p : PCE.t) (n : nat) :
  Nat.iter n (nextRound p) [] = [].
Proof. induction n as [|n IH]; [done|]. by rewrite Nat.iter_succ, IH. Qed.

Lemma expandRound_nextRound (p : PCE.t) (g : string) (l : list string)
    (st : list string * list string) :
  (expandRound p (g :: l) st).2 = nextRound p (g :: l).
Proof.
  destruct (exists_last (l := g :: l) ltac:(discriminate)) as (l' & a & Heq).
  rewrite Heq, expandRound_more. unfold nextRound. by rewrite last_snoc.
Qed.

Lemma expandMore_step (fuel : nat) (p : PCE.t) (labelHrefs : list string)
    (g : string) (l : list string) :
  expandMore (S fuel) p labelHrefs (g :: l) =
  expandMore fuel p
    (labelHrefs ++ concat (map (labelHrefsOf p) (g :: l)))
    (nextRound p (g :: l)).
Proof.
  by rewrite expandMore_cons, expandRound_labels, expandRound_nextRound.
Qed.

(** The loop of lines 93-99 ends within [fuel] rounds exactly when the chain
    of rounds reaches the empty list within [fuel] steps. *)
Lemma expandMore_is_Some (fuel : nat) (p : PCE.t)
    (labelHrefs moreSGs : list string) :
  is_Some (expandMore fuel p labelHrefs moreSGs)
  ↔ ∃ n, (n <= fuel)%nat ∧ Nat.iter n (nextRound p) moreSGs = [].
Proof.
  revert labelHrefs moreSGs.
  induction fuel as [|fuel IH]; intros labelHrefs moreSGs.
  - destruct moreSGs as [|g l]; cbn.
    + split; [intros _; by exists 0%nat | by eexists].
    + split; [by intros [? ?] | intros (n & Hn & Hit)].
      assert (n = 0%nat) as -> by lia. discriminate.
  - destruct moreSGs as [|g l].
    + rewrite expandMore_nil. split; [intros _; exists 0%nat; split; [lia|done] | by eexists].
    + rewrite expandMore_step, IH. split.
      * intros (n & Hn & Hit). exists (S n). split; [lia|].
        by rewrite Nat.iter_succ_r.
      * intros (n & Hn & Hit). destruct n as [|n]; [discriminate|].
        exists n. split; [lia|]. by rewrite <- Nat.iter_succ_r.
Qed.

Lemma expandMore_elem (fuel : nat) (p : PCE.t)
    (labelHrefs moreSGs r : list string) :
  expandMore fuel p labelHrefs moreSGs = Some r ->
  ∀ x, x ∈ r ↔
       x ∈ labelHrefs
       ∨ ∃ i g, g ∈ Nat.iter i (nextRound p) moreSGs ∧ x ∈ labelHrefsOf p g.
Proof.
  revert labelHrefs moreSGs.
  induction fuel as [|fuel IH]; intros labelHrefs moreSGs Hr x.
  - destruct moreSGs as [|g l]; [|discriminate].
    rewrite expandMore_nil in Hr. injection Hr as <-.
    split; [by left|]. intros [Hx|(i & g & Hg & _)]; [done|].
    rewrite iter_nextRound_nil in Hg. by apply elem_of_nil in Hg.
  - destruct moreSGs as [|g l].
    + rewrite expandMore_nil in Hr. injection Hr as <-.
      split; [by left|]. intros [Hx|(i & g' & Hg & _)]; [done|].
      rewrite iter_nextRound_nil in Hg. by apply elem_of_nil in Hg.
    + rewrite expandMore_step in Hr. rewrite (IH _ _ Hr x), elem_of_app.
      split.
      * intros [[Hx|Hx]|(i & g' & Hg & Hx)].
        -- by left.
        -- right. apply list_elem_of_In, in_concat in Hx as (ls & Hls & Hx).
           apply in_map_iff in Hls as (g' & <- & Hg').
           exists 0%nat, g'. split; by apply list_elem_of_In.
        -- right. exists (S i), g'. by rewrite Nat.iter_succ_r.
      * intros [Hx|(i & g' & Hg & Hx)]; [by left; left|].
        destruct i as [|i].
        -- left; right. apply list_elem_of_In, in_concat.
           exists (labelHrefsOf p g'). split; [|by apply list_elem_of_In].
           apply in_map. by apply list_elem_of_In.
        -- right. exists i, g'. by rewrite <- Nat.iter_succ_r.
Qed.

Lemma expandSubGroups_is_Some (fuel : nat) (p : PCE.t)
    (sgs : list SubGroups.t) (labelHrefs : list string) :
  is_Some (expandSubGroups fuel p sgs labelHrefs)
  ↔ ∀ sg, sg ∈ sgs →
      ∃ n, (n <= fuel)%nat
           ∧ Nat.iter n (nextRound p)
               (subGroupHrefsOf p (SubGroups.Href sg)) = [].
Proof.
  revert labelHrefs. induction sgs as [|sg rest IH]; intros labelHrefs.
  - split; [intros _ sg Hsg; by apply elem_of_nil in Hsg | by eexists].
  - rewrite expandSubGroups_cons. split.
    + intros Hsome sg' Hsg'.
      destruct (expandMore fuel p _ _) as [lh|] eqn:E;
        [|by destruct Hsome].
      apply elem_of_cons in Hsg' as [->|Hsg'].
      * apply (expandMore_is_Some fuel p
                 (labelHrefs ++ labelHrefsOf p (SubGroups.Href sg))).
        by rewrite E.
      * by apply (proj1 (IH lh)).
    + intros Hall.
      destruct (proj2 (expandMore_is_Some fuel p
                         (labelHrefs ++ labelHrefsOf p (SubGroups.Href sg))
                         (subGroupHrefsOf p (SubGroups.Href sg))))
        as [lh ->]; [apply Hall; by left|].
      apply IH. intros sg' Hsg'. apply Hall. by right.
Qed.

Lemma expandSubGroups_elem (fuel : nat) (p : PCE.t) (sgs : list SubGroups.t)
    (labelHrefs r : list string) :
  expandSubGroups fuel p sgs labelHrefs = Some r ->
  ∀ x, x ∈ r ↔
       x ∈ labelHrefs
       ∨ ∃ sg, sg ∈ sgs ∧
           (x ∈ labelHrefsOf p (SubGroups.Href sg)
            ∨ ∃ i g, g ∈ Nat.iter i (nextRound p)
                           (subGroupHrefsOf p (SubGroups.Href sg))
                     ∧ x ∈ labelHrefsOf p g).
Proof.
  revert labelHrefs. induction sgs as [|sg rest IH]; intros labelHrefs Hr x.
  - injection Hr as <-. split; [by left|].
    intros [Hx|(sg & Hsg & _)]; [done | by apply elem_of_nil in Hsg].
  - rewrite expandSubGroups_cons in Hr.
    destruct (expandMore fuel p _ _) as [lh|] eqn:E; [|discriminate].
    rewrite (IH _ Hr x), (expandMore_elem _ _ _ _ _ E x), elem_of_app.
    split.
    + intros [[[Hx|Hx]|Hx]|(sg' & Hsg' & Hx)].
      * by left.
      * right. exists sg. split; [by left | by left].
      * right. exists sg. split; [by left | by right].
      * right. exists sg'. split; [by right | done].
    + intros [Hx|(sg' & Hsg' & Hx)]; [by left; left; left|].
      apply elem_of_cons in Hsg' as [->|Hsg'].
      * left. destruct Hx as [Hx|Hx]; [left; by right | by right].
      * right. by exists sg'.
Qed.

Lemma elem_of_subGroupHrefsOf (p : PCE.t) (root h : string) :
  h ∈ subGroupHrefsOf p root
  ↔ ∃ sg, sg ∈ PtrToVal [] (LabelGroup.SubGroups (lookupLabelGroup p root))
          ∧ SubGroups.Href sg = h.
Proof.
  rewrite subGroupHrefsOf_eq, list_elem_of_In, in_map_iff.
  split; intros (sg & H1 & H2); exists sg.
  - split; [by apply list_elem_of_In | done].
  - split; [done | by apply list_elem_of_In].
Qed.

(** X1.  [ExpandLabelGroup root] returns (for some bound on the rounds)
    exactly when, for every subgroup [sg] that [root] lists, the chain that
    starts with the subgroups of [sg] and goes on with the subgroups of the
    last group of each round reaches a round without groups. *)
Theorem ExpandLabelGroup_returns_iff (p : PCE.t) (root : string) :
  (∃ fuel res, ExpandLabelGroup fuel p root = Some res)
  ↔ ∀ sg, sg ∈ subGroupHrefsOf p root →
      ∃ n, Nat.iter n (nextRound p) (subGroupHrefsOf p sg) = [].
Proof.
  split.
  - intros (fuel & res & Hres) h Hh. rewrite ExpandLabelGroup_eq in Hres.
    destruct (expandSubGroups fuel p _ _) as [lh|] eqn:E; [|discriminate].
    apply elem_of_subGroupHrefsOf in Hh as (sg & Hsg & <-).
    destruct (proj1 (expandSubGroups_is_Some fuel p _ _)
                (mk_is_Some _ _ E) sg Hsg) as (n & _ & Hn).
    by exists n.
  - intros Hall.
    assert (∃ fuel, ∀ sg,
               sg ∈ PtrToVal []
                      (LabelGroup.SubGroups (lookupLabelGroup p root)) →
               ∃ n, (n <= fuel)%nat
                    ∧ Nat.iter n (nextRound p)
                        (subGroupHrefsOf p (SubGroups.Href sg)) = [])
      as (fuel & Hfuel).
    { assert (∀ sg,
                 sg ∈ PtrToVal []
                        (LabelGroup.SubGroups (lookupLabelGroup p root)) →
                 ∃ n, Nat.iter n (nextRound p)
                        (subGroupHrefsOf p (SubGroups.Href sg)) = [])
        as Hall'.
      { intros sg Hsg. apply Hall, elem_of_subGroupHrefsOf. by exists sg. }
      clear Hall. induction (PtrToVal [] _) as [|sg rest IH].
      - exists 0%nat. intros sg Hsg. by apply elem_of_nil in Hsg.
      - destruct IH as (f1 & Hf1); [intros sg' Hsg'; apply Hall'; by right|].
        destruct (Hall' sg ltac:(by left)) as (n & Hn).
        exists (max f1 n). intros sg' Hsg'.
        apply elem_of_cons in Hsg' as [->|Hsg'].
        + exists n. split; [lia | done].
        + destruct (Hf1 sg' Hsg') as (n' & Hle & Hn').
          exists n'. split; [lia | done]. }
    destruct (proj2 (expandSubGroups_is_Some fuel p _ (labelHrefsOf p root))
                Hfuel) as [lh Hlh].
    exists fuel, (dedupe lh). by rewrite ExpandLabelGroup_eq, Hlh.
Qed.

(** X2.  When [ExpandLabelGroup root] returns, the labels it returns are
    those of [root], of the subgroups [root] lists, and of the groups of the
    rounds that follow each of them: all the subgroups of the subgroup, then
    all the subgroups of the last group of the round before. *)
Theorem ExpandLabelGroup_visits (fuel : nat) (p : PCE.t) (root : string)
    (res : list string) :
  ExpandLabelGroup fuel p root = Some res ->
  ∀ x, x ∈ res ↔
       x ∈ labelHrefsOf p root
       ∨ ∃ sg, sg ∈ subGroupHrefsOf p root ∧
           (x ∈ labelHrefsOf p sg
            ∨ ∃ i g, g ∈ Nat.iter i (nextRound p) (subGroupHrefsOf p sg)
                     ∧ x ∈ labelHrefsOf p g).
Proof.
  rewrite ExpandLabelGroup_eq.
  destruct (expandSubGroups fuel p _ _) as [lh|] eqn:E; [|discriminate].
  intros [= <-] x. rewrite elem_of_dedupe, (expandSubGroups_elem _ _ _ _ _ E x).
  split; (intros [Hx|(sg & Hsg & Hx)]; [by left|right]).
  - exists (SubGroups.Href sg). split; [|done].
    apply elem_of_subGroupHrefsOf. by exists sg.
  - apply elem_of_subGroupHrefsOf in Hsg as (sg' & Hsg' & <-). by exists sg'.
Qed.

Lemma ExpandLabelGroup_visits_witness :
  ∃ res,
    ExpandLabelGroup 3 nested "P" = Some res
    ∧ ∀ x, x ∈ res ↔
           x ∈ labelHrefsOf nested "P"
           ∨ ∃ sg, sg ∈ subGroupHrefsOf nested "P" ∧
               (x ∈ labelHrefsOf nested sg
                ∨ ∃ i g, g ∈ Nat.iter i (nextRound nested)
                               (subGroupHrefsOf nested sg)
                         ∧ x ∈ labelHrefsOf nested g).
Proof.
  eexists. split; [vm_compute; reflexivity|].
  apply (ExpandLabelGroup_visits 3 nested "P"). vm_compute. reflexivity.
Defined.

(** The same, for use below. *)
Lemma ExpandLabelGroup_elem (fuel : nat) (p : PCE.t) (root : string)
    (res : list string) :
  ExpandLabelGroup fuel p root = Some res ->
  ∀ x, x ∈ res ↔
       x ∈ labelHrefsOf p root
       ∨ ∃ sg, sg ∈ subGroupHrefsOf p root ∧
           (x ∈ labelHrefsOf p sg
            ∨ ∃ i g, g ∈ Nat.iter i (nextRound p) (subGroupHrefsOf p sg)
                     ∧ x ∈ labelHrefsOf p g).
Proof.
  rewrite ExpandLabelGroup_eq.
  destruct (expandSubGroups fuel p _ _) as [lh|] eqn:E; [|discriminate].
  intros [= <-] x. rewrite elem_of_dedupe, (expandSubGroups_elem _ _ _ _ _ E x).
  split; (intros [Hx|(sg & Hsg & Hx)]; [by left|right]).
  - exists (SubGroups.Href sg). split; [|done].
    apply elem_of_subGroupHrefsOf. by exists sg.
  - apply elem_of_subGroupHrefsOf in Hsg as (sg' & Hsg' & <-). by exists sg'.
Qed.

Section TwoLevels.
Context (p : PCE.t) (root : string).
Context (Hflat : ∀ sg g, sg ∈ subGroupHrefsOf p root →
                         g ∈ subGroupHrefsOf p sg →
                         subGroupHrefsOf p g = []).

Lemma nextRound_flat (sg : string) :
  sg ∈ subGroupHrefsOf p root -> nextRound p (subGroupHrefsOf p sg) = [].
Proof.
  intros Hsg. unfold nextRound.
  destruct (last (subGroupHrefsOf p sg)) as [g|] eqn:E; [|done].
  apply (Hflat sg g Hsg). by apply last_Some_elem_of.
Qed.

Lemma iter_nextRound_flat (sg : string) (i : nat) :
  sg ∈ subGroupHrefsOf p root ->
  Nat.iter (S i) (nextRound p) (subGroupHrefsOf p sg) = [].
Proof.
  intros Hsg. by rewrite Nat.iter_succ_r, nextRound_flat, iter_nextRound_nil.
Qed.

Lemma reaches_flat (g : string) :
  reaches p root g ->
  g = root ∨ g ∈ subGroupHrefsOf p root
  ∨ ∃ sg, sg ∈ subGroupHrefsOf p root ∧ g ∈ subGroupHrefsOf p sg.
Proof.
  induction 1 as [|h k _ IH Hk]; [by left|].
  destruct IH as [->|[Hh|(sg & Hsg & Hh)]].
  - right; by left.
  - right; right. by exists h.
  - rewrite (Hflat sg h Hsg Hh) in Hk. by apply elem_of_nil in Hk.
Qed.

End TwoLevels.

(** X3.  When no subgroup of a subgroup of [root] lists subgroups of its
    own (the nesting is at most two levels deep), [ExpandLabelGroup root]
    returns after one round, and what it returns is exactly the labels of the
    groups reachable from [root], each once. *)
Theorem ExpandLabelGroup_two_levels (p : PCE.t) (root : string) (fuel : nat) :
  (1 <= fuel)%nat ->
  (∀ sg g, sg ∈ subGroupHrefsOf p root → g ∈ subGroupHrefsOf p sg →
           subGroupHrefsOf p g = []) ->
  ∃ res,
    ExpandLabelGroup fuel p root = Some res
    ∧ NoDup res
    ∧ ∀ x, x ∈ res ↔ ∃ g, reaches p root g ∧ x ∈ labelHrefsOf p g.
Proof.
  intros Hfuel Hflat.
  destruct (proj2 (expandSubGroups_is_Some fuel p
                     (PtrToVal []
                        (LabelGroup.SubGroups (lookupLabelGroup p root)))
                     (labelHrefsOf p root))) as [lh Hlh].
  { intros sg Hsg. exists 1%nat. split; [done|].
    apply (iter_nextRound_flat p root Hflat _ 0%nat).
    apply elem_of_subGroupHrefsOf. by exists sg. }
  assert (ExpandLabelGroup fuel p root = Some (dedupe lh)) as Hres
    by (by rewrite ExpandLabelGroup_eq, Hlh).
  exists (dedupe lh). split; [done|]. split; [apply NoDup_dedupe|].
  intros x. rewrite (ExpandLabelGroup_elem _ _ _ _ Hres x). split.
  - intros [Hx|(sg & Hsg & [Hx|(i & g & Hg & Hx)])].
    + exists root. split; [constructor | done].
    + exists sg. split; [|done]. by apply reaches_step with root; [constructor|].
    + destruct i as [|i];
        [|rewrite (iter_nextRound_flat p root Hflat) in Hg by done;
          by apply elem_of_nil in Hg].
      exists g. split; [|done]. apply reaches_step with sg; [|done].
      by apply reaches_step with root; [constructor|].
  - intros (g & Hg & Hx).
    apply (reaches_flat p root Hflat) in Hg as [->|[Hg|(sg & Hsg & Hg)]].
    + by left.
    + right. exists g. split; [done | by left].
    + right. exists sg. split; [done|]. right. by exists 0%nat, g.
Qed.

Lemma twoLevels_flat :
  ∀ sg g, sg ∈ subGroupHrefsOf twoLevels "R" →
          g ∈ subGroupHrefsOf twoLevels sg →
          subGroupHrefsOf twoLevels g = [].
Proof.
  intros sg g Hsg.
  change (subGroupHrefsOf twoLevels "R") with ["S1"; "S2"] in Hsg.
  repeat (apply elem_of_cons in Hsg as [->|Hsg]);
    [| |by apply elem_of_nil in Hsg].
  - change (subGroupHrefsOf twoLevels "S1") with ["G1"; "G2"]. intros Hg.
    repeat (apply elem_of_cons in Hg as [->|Hg]);
      [reflexivity | reflexivity | by apply elem_of_nil in Hg].
  - change (subGroupHrefsOf twoLevels "S2") with (@nil string). intros Hg.
    by apply elem_of_nil in Hg.
Qed.

Lemma ExpandLabelGroup_two_levels_witness :
  ∃ res,
    ExpandLabelGroup 1 twoLevels "R" = Some res
    ∧ NoDup res
    ∧ ∀ x, x ∈ res ↔
           ∃ g, reaches twoLevels "R" g ∧ x ∈ labelHrefsOf twoLevels g.
Proof.
  apply (ExpandLabelGroup_two_levels twoLevels "R" 1); [lia|].
  exact twoLevels_flat.
Defined.

(** ** The lookup table: keys and lookups *)

Lemma elem_of_keysOf (lg : LabelGroup.t) (k : string) :
  k ∈ keysOf lg
  ↔ k = LabelGroup.Href lg ∨ k = LabelGroup.Name lg
    ∨ k = LabelGroup.Key lg +:+ LabelGroup.Name lg.
Proof.
  unfold keysOf. rewrite !elem_of_cons, elem_of_nil. tauto.
Qed.

Lemma indexStep_lookup (m : gmap string LabelGroup.t) (lg : LabelGroup.t)
    (k : string) :
  <[LabelGroup.Key lg +:+ LabelGroup.Name lg := lg]>
    (<[LabelGroup.Name lg := lg]> (<[LabelGroup.Href lg := lg]> m)) !! k =
  if decide (k ∈ keysOf lg) then Some lg else m !! k.
Proof.
  rewrite !lookup_insert.
  destruct (decide (k ∈ keysOf lg)) as [Hk|Hk];
    rewrite elem_of_keysOf in Hk; repeat case_decide;
    first [reflexivity | exfalso; intuition congruence].
Qed.

Lemma index_lookup_skip (slice : list LabelGroup.t)
    (m : gmap string LabelGroup.t) (k : string) :
  (∀ g, g ∈ slice → k ∉ keysOf g) ->
  foldl (fun m lg =>
           <[LabelGroup.Key lg +:+ LabelGroup.Name lg := lg]>
             (<[LabelGroup.Name lg := lg]>
                (<[LabelGroup.Href lg := lg]> m)))
        m slice !! k = m !! k.
Proof.
  revert m. induction slice as [|g rest IH]; intros m Hno; [done|].
  cbn [foldl]. rewrite IH, indexStep_lookup.
  - rewrite decide_False; [done|]. apply Hno. by left.
  - intros g' Hg'. apply Hno. by right.
Qed.

Lemma indexLabelGroups_last (l1 l2 : list LabelGroup.t) (g : LabelGroup.t)
    (k : string) :
  k ∈ keysOf g -> (∀ g', g' ∈ l2 → k ∉ keysOf g') ->
  indexLabelGroups (l1 ++ g :: l2) !! k = Some g.
Proof.
  intros Hk Hno. unfold indexLabelGroups. rewrite foldl_app. cbn [foldl].
  rewrite index_lookup_skip by done. rewrite indexStep_lookup.
  by rewrite decide_True.
Qed.

Lemma indexLabelGroups_is_Some (slice : list LabelGroup.t) (k : string) :
  is_Some (indexLabelGroups slice !! k) ↔ ∃ g, g ∈ slice ∧ k ∈ keysOf g.
Proof.
  split.
  - intros [lg Hlg]. apply indexLabelGroups_lookup in Hlg as [Hin Hk].
    exists lg. split; [done|]. by apply elem_of_keysOf.
  - intros (g & Hg & Hk). induction slice as [|g' rest IH] using rev_ind;
      [by apply elem_of_nil in Hg|].
    destruct (decide (k ∈ keysOf g')) as [Hk'|Hk'].
    + rewrite (indexLabelGroups_last rest [] g' k Hk'); [by eexists|].
      intros ? Hnil. by apply elem_of_nil in Hnil.
    + apply elem_of_app in Hg as [Hg|Hg];
        [|apply list_elem_of_singleton in Hg; by subst].
      unfold indexLabelGroups in *. rewrite foldl_app. cbn [foldl].
      rewrite indexStep_lookup, decide_False by done. by apply IH.
Qed.

Section CollectionMore.
Context `{Network} `{UnicodeTables}.

(** X4.  After a call that passes validation, the keys of the lookup table
    are exactly the hrefs, the names and the key-and-name strings of the
    groups in the slice as the collection calls left it. *)
Theorem GetLabelGroups_table_keys (p : PCE.t)
    (queryParameters : gmap string string) (pStatus : string) (st : St)
    (k : string) :
  equalUpToCase pStatus "draft" ∨ equalUpToCase pStatus "active" ->
  is_Some
    (PCE.LabelGroups
       (pceOf (resultOf (GetLabelGroups p queryParameters pStatus st))) !! k)
  ↔ ∃ g, g ∈ fetchedSlice p queryParameters pStatus st.1 ∧ k ∈ keysOf g.
Proof.
  intros Hok.
  destruct (GetLabelGroups_valid_last p queryParameters pStatus st Hok)
    as [-> _].
  unfold pceOf. cbn [fst PCE.set_LabelGroups PCE.LabelGroups].
  apply indexLabelGroups_is_Some.
Qed.

(** X5.  After a call that passes validation, a key is mapped to the last
    group of the fetched slice that has it as href, name or key-and-name:
    a group is found under each of its keys unless a later group of the
    slice uses the same string as one of its own. *)
Theorem GetLabelGroups_last_wins (p : PCE.t)
    (queryParameters : gmap string string) (pStatus : string) (st : St)
    (l1 l2 : list LabelGroup.t) (g : LabelGroup.t) (k : string) :
  equalUpToCase pStatus "draft" ∨ equalUpToCase pStatus "active" ->
  PCE.LabelGroupsSlice
    (pceOf (resultOf (GetLabelGroups p queryParameters pStatus st)))
  = l1 ++ g :: l2 ->
  k ∈ keysOf g ->
  (∀ g', g' ∈ l2 → k ∉ keysOf g') ->
  PCE.LabelGroups
    (pceOf (resultOf (GetLabelGroups p queryParameters pStatus st))) !! k
  = Some g.
Proof.
  intros Hok Hslice Hk Hno.
  rewrite (GetLabelGroups_valid_table _ _ _ _ Hok), Hslice.
  by apply indexLabelGroups_last.
Qed.

Lemma valid_lower (pStatus : string) :
  equalUpToCase pStatus "draft" ∨ equalUpToCase pStatus "active" ->
  strings_ToLower pStatus = "draft" ∨ strings_ToLower pStatus = "active".
Proof. intros [Hd|Ha]; [left; exact Hd | right; exact Ha]. Qed.

(** X6.  Whatever the status string, [GetLabelGroups] makes no collection
    call, one, or two; the endpoint is "/sec_policy/draft/label_groups" or
    "/sec_policy/active/label_groups" (lower case whatever the case given),
    the first call is synchronous and the second, to the same endpoint with
    the same query parameters, asynchronous. *)
Theorem GetLabelGroups_calls (p : PCE.t)
    (queryParameters : gmap string string) (pStatus : string) (st : St) :
  traceOf (GetLabelGroups p queryParameters pStatus st) = st.2
  ∨ ∃ endpoint,
      (endpoint = "/sec_policy/draft/label_groups"
       ∨ endpoint = "/sec_policy/active/label_groups")
      ∧ (traceOf (GetLabelGroups p queryParameters pStatus st) =
         st.2 ++ [EvGetCollection endpoint false queryParameters]
         ∨ traceOf (GetLabelGroups p queryParameters pStatus st) =
           st.2 ++ [EvGetCollection endpoint false queryParameters;
                    EvGetCollection endpoint true queryParameters]).
Proof.
  assert (equalUpToCase pStatus "draft" ∨ equalUpToCase pStatus "active"
          ∨ ¬ (equalUpToCase pStatus "draft"
               ∨ equalUpToCase pStatus "active")) as Hcase.
  { destruct (negb (String.eqb (strings_ToLower pStatus) "active")
              && negb (String.eqb (strings_ToLower pStatus) "draft")) eqn:E.
    - right; right. intros Hok. apply pStatus_test in Hok. congruence.
    - apply pStatus_test in E. tauto. }
  assert ((equalUpToCase pStatus "draft" ∨ equalUpToCase pStatus "active")
          ∨ ¬ (equalUpToCase pStatus "draft"
               ∨ equalUpToCase pStatus "active")) as [Hok|Hbad] by tauto.
  - right. rewrite (GetLabelGroups_valid _ _ _ _ Hok).
    exists ("/sec_policy/" +:+ strings_ToLower pStatus +:+ "/label_groups").
    split.
    + destruct (valid_lower _ Hok) as [-> | ->]; [by left | by right].
    + destruct (500 <=? _)%Z; unfold traceOf; cbn [fst snd].
      * right. by rewrite <- app_assoc.
      * by left.
  - left. by rewrite (GetLabelGroups_invalid _ _ _ _ Hbad).
Qed.

End CollectionMore.

Lemma GetLabelGroups_table_keys_witness :
  is_Some
    (PCE.LabelGroups
       (pceOf (resultOf (@GetLabelGroups twoGroups noUnicode filled ∅ "draft"
                           (0%nat, [])))) !! "k2second")
  ∧ ¬ is_Some
        (PCE.LabelGroups
           (pceOf (resultOf (@GetLabelGroups twoGroups noUnicode filled ∅
                               "draft" (0%nat, [])))) !! "/old").
Proof.
  split.
  - apply (proj2 (@GetLabelGroups_table_keys twoGroups noUnicode filled ∅
                    "draft" (0%nat, []) "k2second"
                    (or_introl eq_refl))).
    exists groupB. split; [by right; left|].
    apply elem_of_keysOf. right; right. reflexivity.
  - intros Hsome.
    apply (proj1 (@GetLabelGroups_table_keys twoGroups noUnicode filled ∅
                    "draft" (0%nat, []) "/old"
                    (or_introl eq_refl))) in Hsome
      as (g & Hg & Hk).
    change (@fetchedSlice twoGroups noUnicode filled ∅ "draft" 0%nat)
      with [groupA; groupB] in Hg.
    apply elem_of_keysOf in Hk.
    repeat (apply elem_of_cons in Hg as [->|Hg]);
      [| |by apply elem_of_nil in Hg];
      destruct Hk as [Hk|[Hk|Hk]]; discriminate Hk.
Defined.

Lemma GetLabelGroups_last_wins_witness :
  PCE.LabelGroups
    (pceOf (resultOf (@GetLabelGroups shadowing noUnicode filled ∅ "draft"
                        (0%nat, [])))) !! "/a"
  = Some (LabelGroup.mk "/b" "/a" None "" None None None None None).
Proof.
  apply (@GetLabelGroups_last_wins shadowing noUnicode filled ∅ "draft"
           (0%nat, [])
           [LabelGroup.mk "/a" "first" None "" None None None None None] []).
  - left. reflexivity.
  - reflexivity.
  - apply elem_of_keysOf. right; left. reflexivity.
  - intros g' Hg'. by apply elem_of_nil in Hg'.
Defined.

(** ** [httpReq]: bounds and pass-through *)

Section OrchestratorMore.
Context `{Network}.
Context (action apiURL body : string) (async : bool)
        (headers : gmap string string).

(** The loop from [retry] on: it ends, every turn that goes on pauses 30
    seconds and makes one exchange, and a 429 answer is only ever returned
    with the rate-limit error, once the seven turns are used up. *)
Lemma httpReqLoop_run (fuel : nat) (api : APIResponse.t) (err : error)
    (retry : Z) (st : St) :
  (0 <= retry <= 7)%Z -> (1 <= fuel)%nat -> (8 <= Z.of_nat fuel + retry)%Z ->
  ∃ api' err' (n : nat),
    resultOf (httpReqLoop fuel action apiURL body async headers
                api err retry st) = Some (api', err')
    ∧ (Z.of_nat n + retry <= 7)%Z
    ∧ sleepsOf (traceOf (httpReqLoop fuel action apiURL body async headers
                           api err retry st)) =
      sleepsOf st.2 ++ replicate n (30 * time_Second)%Z
    ∧ exchangesOf (traceOf (httpReqLoop fuel action apiURL body async headers
                              api err retry st)) =
      (exchangesOf st.2 + n)%nat
    ∧ (APIResponse.StatusCode api' = 429%Z →
       err' = rateLimitError ∧ (Z.of_nat n + retry = 7)%Z).
Proof.
  revert api err retry st.
  induction fuel as [|fuel IH]; intros api err retry st Hretry Hfuel Hsum;
    [lia|].
  destruct (Z.eq_dec (APIResponse.StatusCode api) 429%Z) as [H429|Hne].
  - destruct (Z_le_gt_dec retry 6%Z) as [Hle|Hgt].
    + rewrite (httpReqLoop_retry _ _ _ _ _ _ _ _ _ _ H429 Hle).
      edestruct IH as (api' & err' & n & -> & Hn & -> & -> & Hlast);
        [| | |exists api', err', (S n)]; try lia.
      split; [done|]. split; [lia|]. cbn [snd].
      rewrite !sleepsOf_app, !exchangesOf_app. cbn.
      rewrite app_nil_r, <- app_assoc. split; [done|]. split; [lia|].
      intros Hs. destruct (Hlast Hs) as [-> Heq]. split; [done | lia].
    + rewrite httpReqLoop_give_up; [|done|lia].
      exists api, rateLimitError, 0%nat. cbn.
      rewrite app_nil_r. repeat split; try done; lia.
  - rewrite httpReqLoop_other; [|done].
    exists api, err, 0%nat. cbn. rewrite app_nil_r.
    repeat split; try done; try lia.
Qed.

(** X8.  An answer other than 429 is passed on as it is: [httpReq] returns
    the response and the error of its first exchange, after that one
    exchange and no pause.  This holds for errors too (a transport failure
    answers with the zero response, status 0). *)
Theorem httpReq_passes_on (fuel : nat) (st : St) :
  APIResponse.StatusCode
    (httpSetup action apiURL body async headers st.1).1.1 ≠ 429%Z ->
  httpReq fuel action apiURL body async headers st =
  (Some (httpSetup action apiURL body async headers st.1).1,
   ((httpSetup action apiURL body async headers st.1).2,
    st.2 ++ [EvHttpSetup action apiURL body async headers])).
Proof.
  intros Hne. unfold httpReq, bind, doHttpSetup.
  destruct (httpSetup action apiURL body async headers st.1)
    as [[api err] w].
  by rewrite httpReqLoop_other.
Qed.

(** X9.  [httpReq] returns a response with status 429 only together with
    the rate-limit error, and only after seven pauses and eight
    exchanges. *)
Theorem httpReq_429_result (fuel : nat) (st : St) (api : APIResponse.t)
    (err : error) :
  (8 <= fuel)%nat ->
  resultOf (httpReq fuel action apiURL body async headers st)
  = Some (api, err) ->
  APIResponse.StatusCode api = 429%Z ->
  err = rateLimitError
  ∧ sleepsOf (traceOf (httpReq fuel action apiURL body async headers st)) =
    sleepsOf st.2 ++ replicate 7 (30 * time_Second)%Z
  ∧ exchangesOf (traceOf (httpReq fuel action apiURL body async headers st))
    = (exchangesOf st.2 + 8)%nat.
Proof.
  intros Hfuel. unfold httpReq, bind, doHttpSetup.
  destruct (httpSetup action apiURL body async headers st.1)
    as [[api0 err0] w].
  edestruct (httpReqLoop_run fuel api0 err0 0
               (w, st.2 ++ [EvHttpSetup action apiURL body async headers]))
    as (api' & err' & n & -> & Hn & -> & -> & Hlast); [lia..|].
  intros [= <- <-] H429. destruct (Hlast H429) as [-> Hseven].
  assert (n = 7%nat) as -> by lia. split; [done|]. cbn [snd].
  rewrite sleepsOf_app, exchangesOf_app. cbn.
  rewrite app_nil_r. split; [done | lia].
Qed.

End OrchestratorMore.

Lemma httpReq_passes_on_witness :
  @httpReq asyncFails 0 "GET" "https://pce/api/v2/labels" "" false ∅
    (0%nat, []) =
  (Some (APIResponse.mk "" 200 [] "" [], None),
   (1%nat, [EvHttpSetup "GET" "https://pce/api/v2/labels" "" false ∅])).
Proof.
  apply (@httpReq_passes_on asyncFails "GET" "https://pce/api/v2/labels" ""
           false ∅ 0 (0%nat, [])).
  vm_compute. discriminate.
Defined.

Lemma httpReq_429_result_witness :
  rateLimitError = rateLimitError
  ∧ sleepsOf (traceOf (@httpReq always429 9 "GET"
                         "https://pce/api/v2/labels" "" false ∅
                         (0%nat, []))) =
    sleepsOf [] ++ replicate 7 (30 * time_Second)%Z
  ∧ exchangesOf (traceOf (@httpReq always429 9 "GET"
                            "https://pce/api/v2/labels" "" false ∅
                            (0%nat, [])))
    = (exchangesOf [] + 8)%nat.
Proof.
  apply (@httpReq_429_result always429 "GET" "https://pce/api/v2/labels" ""
           false ∅ 9 (0%nat, []) (APIResponse.mk "" 429 [] "" [])
           rateLimitError).
  - lia.
  - vm_compute. reflexivity.
  - reflexivity.
Defined.

(** ** [cleanFQDN]: the usual spellings *)

Lemma String_length_append (s t : string) :
  String.length (s +:+ t) = (String.length s + String.length t)%nat.
Proof.
  induction s as [|c s IH]; [done|].
  change (S (String.length (s +:+ t))
          = S (String.length s + String.length t)).
  by f_equal.
Qed.

Lemma substring_all (s : string) : substring 0 (String.length s) s = s.
Proof.
  induction s as [|c s IH]; [done|].
  change (String c (substring 0 (String.length s) s) = String c s).
  by f_equal.
Qed.

Lemma substring_append_l (s t : string) :
  substring 0 (String.length s) (s +:+ t) = s.
Proof.
  induction s as [|c s IH]; [by destruct t|].
  change (String c (substring 0 (String.length s) (s +:+ t)) = String c s).
  by f_equal.
Qed.

Lemma substring_append_r (s t : string) (m : nat) :
  substring (String.length s) m (s +:+ t) = substring 0 m t.
Proof. induction s as [|c s IH]; [done | exact IH]. Qed.

Lemma TrimSuffix_append (s suffix : string) :
  strings_TrimSuffix (s +:+ suffix) suffix = s.
Proof.
  unfold strings_TrimSuffix, strings_HasSuffix, sliceStr.
  rewrite String_length_append.
  replace (String.length s + String.length suffix - String.length suffix)%nat
    with (String.length s) by lia.
  replace (String.length s + String.length suffix - String.length s)%nat
    with (String.length suffix) by lia.
  rewrite substring_append_r, substring_all, String.eqb_refl, andb_true_r.
  replace (String.length suffix <=? String.length s + String.length suffix)%nat
    with true by (symmetry; apply Nat.leb_le; lia).
  rewrite Nat.sub_0_r. apply substring_append_l.
Qed.

Lemma TrimPrefix_append (prefix s : string) :
  strings_TrimPrefix (prefix +:+ s) prefix = s.
Proof.
  unfold strings_TrimPrefix, strings_HasPrefix, sliceStr.
  rewrite String_length_append, Nat.sub_0_r, substring_append_l, String.eqb_refl,
    andb_true_r.
  replace (String.length prefix <=? String.length prefix + String.length s)%nat
    with true by (symmetry; apply Nat.leb_le; lia).
  replace (String.length prefix + String.length s - String.length prefix)%nat
    with (String.length s) by lia.
  rewrite substring_append_r. apply substring_all.
Qed.

Lemma TrimPrefix_absent (s prefix : string) :
  strings_HasPrefix s prefix = false -> strings_TrimPrefix s prefix = s.
Proof. intros Hno. unfold strings_TrimPrefix. by rewrite Hno. Qed.

(** X10.  [cleanFQDN] turns "https://host/" into "host", whatever the host,
    and "host/" into "host" when the host does not itself start with
    "https://"; the result is stored in [p.FQDN] and no other field of the
    PCE changes. *)
Theorem cleanFQDN_usual_spellings (host : string)
    (groups : gmap string LabelGroup.t) (fetched : list LabelGroup.t) :
  cleanFQDN (PCE.mk ("https://" +:+ host +:+ "/") groups fetched)
  = (PCE.mk host groups fetched, host)
  ∧ (strings_HasPrefix host "https://" = false →
     cleanFQDN (PCE.mk (host +:+ "/") groups fetched)
     = (PCE.mk host groups fetched, host)).
Proof.
  split.
  - unfold cleanFQDN, PCE.set_FQDN. cbn [PCE.FQDN PCE.LabelGroups
                                          PCE.LabelGroupsSlice].
    change ("https://" +:+ host +:+ "/") with (("https://" +:+ host) +:+ "/").
    by rewrite TrimSuffix_append, TrimPrefix_append.
  - intros Hno. unfold cleanFQDN, PCE.set_FQDN.
    cbn [PCE.FQDN PCE.LabelGroups PCE.LabelGroupsSlice].
    by rewrite TrimSuffix_append, TrimPrefix_absent.
Qed.

Lemma cleanFQDN_usual_spellings_witness :
  cleanFQDN (PCE.mk ("https://" +:+ "pce.example.com:8443" +:+ "/") ∅ [])
  = (PCE.mk "pce.example.com:8443" ∅ [], "pce.example.com:8443")
  ∧ cleanFQDN (PCE.mk ("pce.example.com:8443" +:+ "/") ∅ [])
    = (PCE.mk "pce.example.com:8443" ∅ [], "pce.example.com:8443").
Proof.
  split.
  - apply (proj1 (cleanFQDN_usual_spellings "pce.example.com:8443" ∅ [])).
  - apply (proj2 (cleanFQDN_usual_spellings "pce.example.com:8443" ∅ [])).
    reflexivity.
Defined.

(** ** The transport: reading the response *)

Lemma leading_two (code : Z) :
  (0 <= code <= 999)%Z ->
  String.eqb (sliceStr (Wire.strconv_Itoa code) 0 1) "2" =
  ((code =? 2) || ((20 <=? code) && (code <=? 29))
   || ((200 <=? code) && (code <=? 299)))%Z.
Proof.
  intros Hcode.
  assert (forallb
            (fun n =>
               Bool.eqb
                 (String.eqb
                    (sliceStr (Wire.strconv_Itoa (Z.of_nat n)) 0 1) "2")
                 ((Z.of_nat n =? 2)
                  || ((20 <=? Z.of_nat n) && (Z.of_nat n <=? 29))
                  || ((200 <=? Z.of_nat n) && (Z.of_nat n <=? 299)))%Z)
            (seq 0 1000) = true) as Hall by (vm_compute; reflexivity).
  rewrite forallb_forall in Hall.
  specialize (Hall (Z.to_nat code)). rewrite Z2Nat.id in Hall by lia.
  apply Bool.eqb_prop, Hall, in_seq. lia.
Qed.

(** X11.  For a three-digit status code and a body that could be read, the
    envelope holds the body, the status and the header of the response; the
    error is nil for the codes 200 to 299, and "http status code of"
    followed by the code for every other one, the envelope being returned
    with it. *)
Theorem readResponse_three_digit (resp : Response.t) (data : string) :
  Response.Body resp = Ok data ->
  (100 <= Response.StatusCode resp <= 999)%Z ->
  (Wire.readResponse resp).1 =
  APIResponse.mk data (Response.StatusCode resp) (Response.Header resp) "" []
  ∧ ((200 <= Response.StatusCode resp <= 299)%Z →
     (Wire.readResponse resp).2 = None)
  ∧ (¬ (200 <= Response.StatusCode resp <= 299)%Z →
     (Wire.readResponse resp).2 =
     Some ("http status code of "
           +:+ Wire.strconv_Itoa (Response.StatusCode resp))).
Proof.
  intros Hbody Hcode. unfold Wire.readResponse. rewrite Hbody.
  rewrite leading_two by lia.
  destruct (Z.eqb_spec (Response.StatusCode resp) 2); [lia|].
  destruct (Z.leb_spec 20 (Response.StatusCode resp));
    destruct (Z.leb_spec (Response.StatusCode resp) 29); try lia;
    destruct (Z.leb_spec 200 (Response.StatusCode resp));
    destruct (Z.leb_spec (Response.StatusCode resp) 299); try lia;
    cbn; repeat split; try done; intros; lia.
Qed.

Lemma readResponse_three_digit_witness :
  (Wire.readResponse (Response.mk 404 [] (Ok "no such resource"))).1 =
  APIResponse.mk "no such resource" 404 [] "" []
  ∧ ((200 <= 404 <= 299)%Z →
     (Wire.readResponse (Response.mk 404 [] (Ok "no such resource"))).2
     = None)
  ∧ (¬ (200 <= 404 <= 299)%Z →
     (Wire.readResponse (Response.mk 404 [] (Ok "no such resource"))).2 =
     Some ("http status code of " +:+ Wire.strconv_Itoa 404)).
Proof.
  apply (readResponse_three_digit
           (Response.mk 404 [] (Ok "no such resource")) "no such resource").
  - reflexivity.
  - cbn. lia.
Defined.

(** X12.  The test on the status reads the first decimal digit only: of the
    codes below 100, the code 2 and the codes 20 to 29 are returned without
    error, and every other one with the error. *)
Theorem readResponse_below_100 (resp : Response.t) (data : string) :
  Response.Body resp = Ok data ->
  (0 <= Response.StatusCode resp < 100)%Z ->
  (Wire.readResponse resp).2 = None
  ↔ (Response.StatusCode resp = 2
     ∨ 20 <= Response.StatusCode resp <= 29)%Z.
Proof.
  intros Hbody Hcode. unfold Wire.readResponse. rewrite Hbody.
  rewrite leading_two by lia.
  destruct (Z.eqb_spec (Response.StatusCode resp) 2);
    destruct (Z.leb_spec 20 (Response.StatusCode resp));
    destruct (Z.leb_spec (Response.StatusCode resp) 29);
    destruct (Z.leb_spec 200 (Response.StatusCode resp));
    destruct (Z.leb_spec (Response.StatusCode resp) 299); try lia;
    cbn; split; try done; try (intros; lia); intros [?|?]; lia.
Qed.

Lemma readResponse_below_100_witness :
  (Wire.readResponse (Response.mk 20 [] (Ok "early"))).2 = None
  ↔ (20 = 2 ∨ 20 <= 20 <= 29)%Z.
Proof.
  apply (readResponse_below_100 (Response.mk 20 [] (Ok "early")) "early").
  - reflexivity.
  - cbn. lia.
Defined.

(** ** The transport: [httpSetup] and [asyncPoll] *)

Ltac wire_run :=
  unfold Wire.bind, Wire.ret, Wire.panic, Wire.outOfFuel, Wire.doRequest,
    Wire.sleep, Wire.getenv; cbn [fst snd].

Lemma wrap64_small (wait : Z) :
  (0 <= wait <= 9223372036)%Z ->
  Wire.wrap64 (wait * time_Second) = (wait * time_Second)%Z.
Proof.
  intros Hwait. unfold Wire.wrap64, time_Second.
  rewrite Z.mod_small; lia.
Qed.

Lemma elem_of_foldl_addHeader (req : Request.t) (kvs : list (string * string))
    (op : HeaderOp) :
  op ∈ Request.Header
         (foldl (fun r kv => Request.addHeader r (OpSet kv.1 kv.2)) req kvs)
  ↔ op ∈ Request.Header req ∨ ∃ kv, kv ∈ kvs ∧ op = OpSet kv.1 kv.2.
Proof.
  revert req. induction kvs as [|kv kvs IH]; intros req; cbn [foldl].
  - split; [by left|]. intros [Hop|(kv & Hkv & _)]; [done|].
    by apply elem_of_nil in Hkv.
  - rewrite IH. cbn [Request.addHeader Request.Header].
    rewrite elem_of_app, list_elem_of_singleton. split.
    + intros [[Hop| ->]|(kv' & Hkv' & ->)].
      * by left.
      * right. exists kv. split; [by left | done].
      * right. exists kv'. split; [by right | done].
    + intros [Hop|(kv' & Hkv' & ->)]; [by left; left|].
      apply elem_of_cons in Hkv' as [->|Hkv'].
      * left; by right.
      * right. by exists kv'.
Qed.

Section TransportFacts.
Context `{Transport}.
Context (c : Conn.t).

Lemma asyncPoll_run (baseURL : string) (origResp : Response.t)
    (client : ClientConfig.t) (pollReq : Request.t) (wait : Z)
    (st : Wire.St) :
  Wire.newClient c = Ok client ->
  Wire.http_NewRequest "GET"
    (baseURL +:+ Header_Get (Response.Header origResp) "Location") BodyNil
  = Ok pollReq ->
  Wire.strconv_Atoi (Header_Get (Response.Header origResp) "Retry-After")
  = Ok wait ->
  let d := Wire.wrap64 (wait * time_Second) in
  let answer := client_Do client (authJSON c pollReq) (wire_Sleep d st.1) in
  Wire.asyncPoll c baseURL origResp st =
  (Returned
     match answer.1 with
     | Err e => (AsyncResults.zero, Some e)
     | Ok pollResp =>
         match Response.Body pollResp with
         | Err e => (AsyncResults.zero, Some e)
         | Ok data => (json_Unmarshal data, None)
         end
     end,
   (answer.2, (st.2 ++ [WSleep d]) ++ [WDo client (authJSON c pollReq)])).
Proof.
  intros Hclient Hreq Hwait d answer. unfold Wire.asyncPoll.
  rewrite Hclient, Hreq, Hwait. wire_run. fold d.
  fold (authJSON c pollReq). fold answer.
  destruct answer as [[pollResp|e] w]; cbn; [|done].
  by destruct (Response.Body pollResp).
Qed.

Lemma asyncPoll_extends (baseURL : string) (origResp : Response.t)
    (st : Wire.St) :
  ∃ tr, wireTrace (Wire.asyncPoll c baseURL origResp st) = st.2 ++ tr.
Proof.
  unfold Wire.asyncPoll, wireTrace.
  destruct (Wire.newClient c) as [client|e];
    [|exists []; by rewrite app_nil_r].
  destruct (Wire.http_NewRequest _ _ _) as [pollReq|e];
    [|exists []; by rewrite app_nil_r].
  destruct (Wire.strconv_Atoi _) as [wait|e];
    [|exists []; by rewrite app_nil_r].
  wire_run. destruct (client_Do _ _ _) as [[pollResp|e] w]; cbn.
  - destruct (Response.Body pollResp); eexists; by rewrite <- app_assoc.
  - eexists; by rewrite <- app_assoc.
Qed.

Lemma pollUntilDone_extends (fuel : nat) (baseURL : string)
    (resp : Response.t) (results : AsyncResults.t) (st : Wire.St) :
  ∃ tr,
    wireTrace (Wire.pollUntilDone fuel c baseURL resp results st)
    = st.2 ++ tr.
Proof.
  revert results st. induction fuel as [|fuel IH]; intros results st;
    cbn [Wire.pollUntilDone];
    (destruct (negb _); [|exists []; by rewrite app_nil_r]).
  - exists []. by rewrite app_nil_r.
  - unfold Wire.bind.
    destruct (asyncPoll_extends baseURL resp st) as (tr1 & Htr1).
    unfold wireTrace in *.
    destruct (Wire.asyncPoll c baseURL resp st)
      as [[[results' [e|]]|msg|] [w1 t1]]; cbn in *; subst t1;
      try (by eexists).
    destruct (IH results' (w1, st.2 ++ tr1)) as (tr2 & ->). cbn.
    eexists. by rewrite <- app_assoc.
Qed.





End TransportFacts.

Section TransportProperties.
Context `{Transport}.
Context (c : Conn.t).
Context (action apiURL body : string) (headers : gmap string string).

(** X13.  [httpSetup] returns the zero envelope and the error, and leaves
    the network alone, when the URL does not parse, when the proxy is set
    and does not parse, or when the request cannot be built. *)
Theorem httpSetup_refuses (fuel : nat) (async : bool) (st : Wire.St)
    (e : string) :
  url_Parse apiURL = Err e
  ∨ ((∃ u, url_Parse apiURL = Ok u) ∧ Wire.newClient c = Err e)
  ∨ ((∃ u, url_Parse apiURL = Ok u) ∧ (∃ client, Wire.newClient c = Ok client)
     ∧ Wire.http_NewRequest action apiURL (BodyBuffer body) = Err e) ->
  Wire.httpSetup fuel c action apiURL body async headers st =
  (Returned (APIResponse.zero, Some e), st).
Proof.
  unfold Wire.httpSetup.
  intros [-> | [[[u ->] ->] | [[u ->] [[client ->] ->]]]]; reflexivity.
Qed.

(** X14.  A synchronous call (the flag is off and FORCE_ASYNC is not
    exactly "true") makes one exchange and no pause, whatever the bound on
    polling, and returns what [readResponse] makes of the answer, or the
    zero envelope with the error of the exchange; besides those its request
    carries, the header calls are basic authentication and the caller's
    headers. *)
Theorem httpSetup_sync (fuel : nat) (st : Wire.St) (u : URL.t)
    (client : ClientConfig.t) (req : Request.t) :
  url_Parse apiURL = Ok u ->
  Wire.newClient c = Ok client ->
  Wire.http_NewRequest action apiURL (BodyBuffer body) = Ok req ->
  os_Getenv "FORCE_ASYNC" st.1 ≠ "true" ->
  Wire.httpSetup fuel c action apiURL body false headers st =
  (Returned
     match (client_Do client (Wire.firstRequest c req headers false) st.1).1
     with
     | Err e => (APIResponse.zero, Some e)
     | Ok resp => Wire.readResponse resp
     end,
   ((client_Do client (Wire.firstRequest c req headers false) st.1).2,
    st.2 ++ [WDo client (Wire.firstRequest c req headers false)]))
  ∧ ∀ op,
      op ∈ Request.Header (Wire.firstRequest c req headers false)
      ↔ op ∈ Request.Header req
        ∨ op = OpSetBasicAuth (Conn.User c) (Conn.Key c)
        ∨ ∃ k v, headers !! k = Some v ∧ op = OpSet k v.
Proof.
  intros Hu Hclient Hreq Henv. split.
  - unfold Wire.httpSetup. rewrite Hu, Hclient, Hreq. wire_run.
    apply String.eqb_neq in Henv. rewrite Henv.
    by destruct (client_Do _ _ _) as [[resp|e] w].
  - intros op. unfold Wire.firstRequest.
    rewrite elem_of_foldl_addHeader. cbn [Request.addHeader Request.Header].
    rewrite elem_of_app, list_elem_of_singleton. split.
    + intros [[Hop| ->]|([k v] & Hkv & ->)]; [by left | right; by left |].
      right; right. exists k, v. split; [|done].
      by apply elem_of_map_to_list.
    + intros [Hop|[->|(k & v & Hkv & ->)]];
        [left; by left | left; by right|].
      right. exists (k, v). split; [|done]. by apply elem_of_map_to_list.
Qed.

Lemma firstRequest_last_Prefer (req : Request.t) :
  last (Request.Header (Wire.firstRequest c req headers true))
  = Some (OpSet "Prefer" "respond-async").
Proof. unfold Wire.firstRequest. cbn. apply last_snoc. Qed.

(** X15.  When the async flag is set, or FORCE_ASYNC is exactly "true", the
    first exchange is made with a request whose last header call sets
    [Prefer] to "respond-async": it comes after the caller's headers. *)
Theorem httpSetup_async_Prefer (fuel : nat) (async : bool) (st : Wire.St)
    (u : URL.t) (client : ClientConfig.t) (req : Request.t) :
  url_Parse apiURL = Ok u ->
  Wire.newClient c = Ok client ->
  Wire.http_NewRequest action apiURL (BodyBuffer body) = Ok req ->
  async = true ∨ os_Getenv "FORCE_ASYNC" st.1 = "true" ->
  ∃ first tr,
    wireTrace (Wire.httpSetup fuel c action apiURL body async headers st)
    = st.2 ++ WDo client first :: tr
    ∧ last (Request.Header first) = Some (OpSet "Prefer" "respond-async").
Proof.
  intros Hu Hclient Hreq Hasync.
  exists (Wire.firstRequest c req headers true).
  assert ((if String.eqb (os_Getenv "FORCE_ASYNC" st.1) "true"
           then true else async) = true) as Hflag.
  { destruct Hasync as [-> | ->]; [by destruct (String.eqb _ _) | done]. }
  unfold Wire.httpSetup, wireTrace. rewrite Hu, Hclient, Hreq. wire_run.
  rewrite Hflag.
  destruct (client_Do _ _ _) as [[resp|e] w1]; cbn;
    [|exists []; split; [done | apply firstRequest_last_Prefer]].
  destruct (pollUntilDone_extends c fuel
              ("https://" +:+ URL.Host u +:+ "/api/v2") resp
              AsyncResults.zero
              (w1, st.2 ++ [WDo client (Wire.firstRequest c req headers true)]))
    as (tr1 & Htr1).
  unfold wireTrace in Htr1.
  destruct (Wire.pollUntilDone _ _ _ _ _ _)
    as [[[early|results]|msg|] [w2 t2]]; cbn in Htr1 |- *; subst t2;
    try (exists tr1; split;
         [by rewrite <- app_assoc | apply firstRequest_last_Prefer]).
  destruct (Wire.http_NewRequest "GET" _ _) as [finalReq|e]; cbn;
    [|exists tr1; split;
      [by rewrite <- app_assoc | apply firstRequest_last_Prefer]].
  destruct (client_Do _ _ _) as [[resp'|e'] w3]; cbn;
    eexists; (split; [|apply firstRequest_last_Prefer]);
    by rewrite <- !app_assoc.
Qed.



(** X18.  Every poll of the loop pauses for the [Retry-After] of the first
    answer and then sends the same request to the [Location] of the first
    answer: what the poll answers carry is never used for the next poll.
    The pause is [Retry-After] seconds as long as that many nanoseconds fit
    in 64 bits. *)
Theorem pollUntilDone_polls (fuel : nat) (baseURL : string)
    (resp : Response.t) (results : AsyncResults.t) (st : Wire.St)
    (client : ClientConfig.t) (pollReq : Request.t) (wait : Z) :
  Wire.newClient c = Ok client ->
  Wire.http_NewRequest "GET"
    (baseURL +:+ Header_Get (Response.Header resp) "Location") BodyNil
  = Ok pollReq ->
  Wire.strconv_Atoi (Header_Get (Response.Header resp) "Retry-After")
  = Ok wait ->
  (∃ n : nat,
     (n <= fuel)%nat ∧
     wireTrace (Wire.pollUntilDone fuel c baseURL resp results st) =
     st.2 ++ concat (replicate n [WSleep (Wire.wrap64 (wait * time_Second));
                                  WDo client (authJSON c pollReq)]))
  ∧ ((0 <= wait <= 9223372036)%Z →
     Wire.wrap64 (wait * time_Second) = (wait * 1000000000)%Z).
Proof.
  intros Hclient Hreq Hwait. split; [|apply wrap64_small].
  revert results st. induction fuel as [|fuel IH]; intros results st;
    cbn [Wire.pollUntilDone];
    (destruct (negb _);
     [|exists 0%nat; split; [lia|]; unfold wireTrace; cbn;
       by rewrite app_nil_r]).
  - exists 0%nat. split; [lia|]. unfold wireTrace. cbn. by rewrite app_nil_r.
  - unfold Wire.bind.
    rewrite (asyncPoll_run c baseURL resp client pollReq wait st
               Hclient Hreq Hwait).
    destruct (match (client_Do _ _ _).1 with
              | Ok _ => _ | Err _ => _ end) as [results' [e|]].
    + exists 1%nat. split; [lia|]. unfold wireTrace. cbn.
      by rewrite <- app_assoc.
    + destruct (IH results'
                  ((client_Do client (authJSON c pollReq)
                      (wire_Sleep (Wire.wrap64 (wait * time_Second)) st.1)).2,
                   (st.2 ++ [WSleep (Wire.wrap64 (wait * time_Second))])
                   ++ [WDo client (authJSON c pollReq)]))
        as (n & Hn & Htr).
      exists (S n). split; [lia|]. rewrite Htr. cbn.
      by rewrite <- !app_assoc.
Qed.

(** X19.  The polling loop has no bound of its own: as long as every poll
    is answered, with a body that can be read, by a job status other than
    "done", no number of polls ends it. *)
Theorem pollUntilDone_never_done (baseURL : string) (resp : Response.t)
    (client : ClientConfig.t) (pollReq : Request.t) (wait : Z) :
  Wire.newClient c = Ok client ->
  Wire.http_NewRequest "GET"
    (baseURL +:+ Header_Get (Response.Header resp) "Location") BodyNil
  = Ok pollReq ->
  Wire.strconv_Atoi (Header_Get (Response.Header resp) "Retry-After")
  = Ok wait ->
  (∀ w, ∃ pollResp data,
     (client_Do client (authJSON c pollReq) w).1 = Ok pollResp
     ∧ Response.Body pollResp = Ok data
     ∧ AsyncResults.Status (json_Unmarshal data) ≠ "done") ->
  ∀ fuel results st,
    AsyncResults.Status results ≠ "done" →
    (Wire.pollUntilDone fuel c baseURL resp results st).1 = OutOfFuel.
Proof.
  intros Hclient Hreq Hwait Hrun.
  induction fuel as [|fuel IH]; intros results st Hnot;
    cbn [Wire.pollUntilDone];
    apply String.eqb_neq in Hnot; rewrite Hnot; cbn [negb]; [done|].
  unfold Wire.bind.
  rewrite (asyncPoll_run c baseURL resp client pollReq wait st
             Hclient Hreq Hwait).
  destruct (Hrun (wire_Sleep (Wire.wrap64 (wait * time_Second)) st.1))
    as (pollResp & data & -> & -> & Hstatus).
  by apply IH.
Qed.


End TransportProperties.

(** *** Instances on the example transports *)

Lemma httpSetup_refuses_witness :
  @Wire.httpSetup jobDone 0 conn "GET" ("https://pce" +:+ String "010" "")
    "" false ∅ start =
  (Returned (APIResponse.zero,
             Some "net/url: invalid control character in URL"), start).
Proof.
  apply (@httpSetup_refuses jobDone conn "GET"
           ("https://pce" +:+ String "010" "") "" ∅ 0 false start).
  left. reflexivity.
Defined.

Lemma httpSetup_sync_witness :
  @Wire.httpSetup notFound 0 conn "GET" labelsURL "" false ∅ start =
  (Returned
     match (@client_Do notFound plainClient
              (Wire.firstRequest conn labelsRequest ∅ false) 0%nat).1
     with
     | Err e => (APIResponse.zero, Some e)
     | Ok resp => Wire.readResponse resp
     end,
   ((@client_Do notFound plainClient
       (Wire.firstRequest conn labelsRequest ∅ false) 0%nat).2,
    [] ++ [WDo plainClient (Wire.firstRequest conn labelsRequest ∅ false)]))
  ∧ ∀ op,
      op ∈ Request.Header (Wire.firstRequest conn labelsRequest ∅ false)
      ↔ op ∈ Request.Header labelsRequest
        ∨ op = OpSetBasicAuth (Conn.User conn) (Conn.Key conn)
        ∨ ∃ k v, (∅ : gmap string string) !! k = Some v ∧ op = OpSet k v.
Proof.
  apply (@httpSetup_sync notFound conn "GET" labelsURL "" ∅ 0 start
           exampleHost plainClient labelsRequest).
  - reflexivity.
  - reflexivity.
  - reflexivity.
  - cbn. discriminate.
Defined.

Lemma httpSetup_async_Prefer_witness :
  ∃ first tr,
    wireTrace (@Wire.httpSetup jobDone 5 conn "GET" labelsURL "" true ∅ start)
    = [] ++ WDo plainClient first :: tr
    ∧ last (Request.Header first) = Some (OpSet "Prefer" "respond-async").
Proof.
  apply (@httpSetup_async_Prefer jobDone conn "GET" labelsURL "" ∅ 5 true
           start exampleHost plainClient labelsRequest).
  - reflexivity.
  - reflexivity.
  - reflexivity.
  - left. reflexivity.
Defined.



Lemma pollUntilDone_polls_witness :
  (∃ n : nat,
     (n <= 3)%nat ∧
     wireTrace (@Wire.pollUntilDone jobDone 3 conn
                  "https://pce.example.com:8443/api/v2" accepted
                  AsyncResults.zero (1%nat, [])) =
     [] ++ concat (replicate n [WSleep (Wire.wrap64 (2 * time_Second));
                                WDo plainClient (authJSON conn jobsRequest)]))
  ∧ ((0 <= 2 <= 9223372036)%Z →
     Wire.wrap64 (2 * time_Second) = (2 * 1000000000)%Z).
Proof.
  apply (@pollUntilDone_polls jobDone conn 3
           "https://pce.example.com:8443/api/v2" accepted AsyncResults.zero
           (1%nat, []) plainClient jobsRequest 2).
  - reflexivity.
  - reflexivity.
  - reflexivity.
Defined.

Lemma jobRunning_never_done :
  ∀ w : nat, ∃ pollResp data,
    (@client_Do jobRunning plainClient (authJSON conn jobsRequest) w).1
    = Ok pollResp
    ∧ Response.Body pollResp = Ok data
    ∧ AsyncResults.Status (@json_Unmarshal jobRunning data) ≠ "done".
Proof.
  intros [|w]; eexists _, _; (split; [reflexivity|]);
    (split; [reflexivity|]); cbn; discriminate.
Qed.

Lemma pollUntilDone_never_done_witness :
  (@Wire.pollUntilDone jobRunning 50 conn
     "https://pce.example.com:8443/api/v2" accepted AsyncResults.zero
     (1%nat, [])).1 = OutOfFuel.
Proof.
  apply (@pollUntilDone_never_done jobRunning conn
           "https://pce.example.com:8443/api/v2" accepted plainClient
           jobsRequest 2).
  - reflexivity.
  - reflexivity.
  - reflexivity.
  - exact jobRunning_never_done.
  - cbn. discriminate.
Defined.


(** The exchange of the asynchronous protocol: the first answer gives
    [Location: /jobs/1] and [Retry-After: 2], the job is running at the first
    poll and done at the second with the result href /reports/1. *)
Example httpSetup_async_exchange :
  (@Wire.httpSetup jobDone 2 conn "GET" labelsURL "" true ∅ start).1
  = Returned (APIResponse.mk "[1,2,3]" 200 [] "" [], None)
  ∧ omap (fun ev => match ev with
                    | WDo _ req => Some (URL.Raw (Request.URL req))
                    | WSleep _ => None
                    end)
         (wireTrace (@Wire.httpSetup jobDone 2 conn "GET" labelsURL "" true
                       ∅ start))
    = [labelsURL;
       "https://pce.example.com:8443/api/v2/jobs/1";
       "https://pce.example.com:8443/api/v2/jobs/1";
       "https://pce.example.com:8443/api/v2/reports/1"].
Proof. split; vm_compute; reflexivity. Qed.

(** ** [httpReq] over the transport *)

Section WireOrchestrator.
Context `{Transport}.
Context (fuel : nat) (c : Conn.t) (action apiURL body : string)
        (async : bool) (headers : gmap string string).

Lemma httpSetup_extends (st : Wire.St) :
  ∃ tr,
    wireTrace (Wire.httpSetup fuel c action apiURL body async headers st)
    = st.2 ++ tr.
Proof.
  unfold Wire.httpSetup, wireTrace.
  destruct (url_Parse apiURL) as [u|e]; [|exists []; by rewrite app_nil_r].
  destruct (Wire.newClient c) as [client|e];
    [|exists []; by rewrite app_nil_r].
  destruct (Wire.http_NewRequest action apiURL _) as [req|e];
    [|exists []; by rewrite app_nil_r].
  wire_run.
  destruct (client_Do _ _ _) as [[resp|e] w1]; cbn; [|by eexists].
  destruct (if String.eqb _ _ then true else async); cbn; [|by eexists].
  match goal with
  | |- context [Wire.pollUntilDone ?f ?c0 ?b ?r ?z ?s] =>
      destruct (pollUntilDone_extends c0 f b r z s) as (tr1 & Htr1);
      unfold wireTrace in Htr1;
      destruct (Wire.pollUntilDone f c0 b r z s)
        as [[[early|results]|msg|] [w2 t2]]
  end; cbn in Htr1 |- *; subst t2;
    try (exists ([WDo client (Wire.firstRequest c req headers true)] ++ tr1);
         by rewrite <- app_assoc).
  destruct (Wire.http_NewRequest "GET" _ _) as [finalReq|e]; cbn;
    [|eexists; by rewrite <- app_assoc].
  destruct (client_Do _ _ _) as [[resp'|e'] w3]; cbn;
    eexists; by rewrite <- !app_assoc.
Qed.

Lemma httpReqLoop_wire (turns : nat) (api : APIResponse.t) (err : error)
    (retry : Z) (st : Wire.St) :
  (0 <= retry <= 7)%Z -> (1 <= turns)%nat ->
  (8 <= Z.of_nat turns + retry)%Z ->
  ∃ rest,
    (Z.of_nat (length rest) + retry <= 7)%Z
    ∧ Forall (runOf (Wire.httpSetup fuel c action apiURL body async headers))
             rest
    ∧ wireTrace (WireReq.httpReqLoop turns fuel c action apiURL body async
                   headers api err retry st) =
      st.2 ++ concat (map (cons (WSleep (30 * time_Second))) rest)
    ∧ ((∃ r, (WireReq.httpReqLoop turns fuel c action apiURL body async
                headers api err retry st).1 = Returned r)
       ∨ ∃ st0,
           (Wire.httpSetup fuel c action apiURL body async headers st0).1 =
           (WireReq.httpReqLoop turns fuel c action apiURL body async headers
              api err retry st).1).
Proof.
  revert api err retry st.
  induction turns as [|turns IH]; intros api err retry st Hretry Hturns Hsum;
    [lia|].
  cbn [WireReq.httpReqLoop].
  destruct (APIResponse.StatusCode api =? 429)%Z;
    [|exists []; unfold wireTrace, Wire.ret; cbn; rewrite app_nil_r;
      split; [lia|]; split; [constructor|]; split; [done|]; left; by eexists].
  destruct (retry >? 6)%Z eqn:Eretry;
    [exists []; unfold wireTrace, Wire.ret; cbn; rewrite app_nil_r;
     split; [lia|]; split; [constructor|]; split; [done|]; left; by eexists|].
  assert (retry <= 6)%Z as Hle by lia.
  unfold Wire.bind, Wire.sleep. cbn beta iota.
  set (st1 := (wire_Sleep (30 * time_Second) st.1,
               st.2 ++ [WSleep (30 * time_Second)])).
  destruct (httpSetup_extends st1) as (seg & Hseg). unfold wireTrace in Hseg.
  destruct (Wire.httpSetup fuel c action apiURL body async headers st1)
    as [[r|msg|] [w2 t2]] eqn:Ecall; cbn in Hseg; subst t2.
  - destruct (IH r.1 r.2 (retry + 1)%Z
                (w2, (st.2 ++ [WSleep (30 * time_Second)]) ++ seg))
      as (rest & Hlen & Hruns & Htr & Hout); [lia..|].
    exists (seg :: rest). split; [cbn [length]; lia|]. split.
    { constructor; [|done]. exists st1. unfold wireTrace. by rewrite Ecall. }
    split; [|exact Hout].
    rewrite Htr. cbn [snd map concat]. by rewrite <- !app_assoc.
  - exists [seg]. split; [cbn; lia|]. split.
    { constructor; [|constructor]. exists st1. unfold wireTrace.
      by rewrite Ecall. }
    split.
    + unfold wireTrace. subst st1. cbn. by rewrite app_nil_r, <- app_assoc.
    + right. exists st1. by rewrite Ecall.
  - exists [seg]. split; [cbn; lia|]. split.
    { constructor; [|constructor]. exists st1. unfold wireTrace.
      by rewrite Ecall. }
    split.
    + unfold wireTrace. subst st1. cbn. by rewrite app_nil_r, <- app_assoc.
    + right. exists st1. by rewrite Ecall.
Qed.

(** X7.  The retry loop of [httpReq] needs no more than eight turns: run
    over the embedded [httpSetup], [httpReq] makes at most eight calls of
    [httpSetup], with one pause of 30 seconds before each call after the
    first and nothing else of its own; and it returns, unless one of those
    calls does not return (a panic, a poll without end), in which case it
    ends as that call ended. *)
Theorem httpReq_returns_unless_httpSetup (turns : nat) (st : Wire.St) :
  (8 <= turns)%nat ->
  (∃ first rest,
     (length rest <= 7)%nat
     ∧ runOf (Wire.httpSetup fuel c action apiURL body async headers) first
     ∧ Forall (runOf (Wire.httpSetup fuel c action apiURL body async headers))
              rest
     ∧ wireTrace (WireReq.httpReq turns fuel c action apiURL body async
                    headers st) =
       st.2 ++ first
       ++ concat (map (cons (WSleep (30 * time_Second))) rest))
  ∧ ((∃ r, (WireReq.httpReq turns fuel c action apiURL body async headers
              st).1 = Returned r)
     ∨ ∃ st0,
         (Wire.httpSetup fuel c action apiURL body async headers st0).1 =
         (WireReq.httpReq turns fuel c action apiURL body async headers
            st).1).
Proof.
  intros Hturns. unfold WireReq.httpReq, Wire.bind.
  destruct (httpSetup_extends st) as (first & Hfirst).
  unfold wireTrace in Hfirst.
  destruct (Wire.httpSetup fuel c action apiURL body async headers st)
    as [[r|msg|] [w1 t1]] eqn:Ecall; cbn in Hfirst; subst t1.
  - destruct (httpReqLoop_wire turns r.1 r.2 0 (w1, st.2 ++ first))
      as (rest & Hlen & Hruns & Htr & Hout); [lia..|].
    split; [|exact Hout].
    exists first, rest. split; [lia|]. split.
    { exists st. unfold wireTrace. by rewrite Ecall. }
    split; [done|]. rewrite Htr. cbn. by rewrite <- app_assoc.
  - split.
    + exists first, []. split; [cbn; lia|]. split.
      { exists st. unfold wireTrace. by rewrite Ecall. }
      split; [constructor|]. unfold wireTrace. cbn. by rewrite app_nil_r.
    + right. exists st. by rewrite Ecall.
  - split.
    + exists first, []. split; [cbn; lia|]. split.
      { exists st. unfold wireTrace. by rewrite Ecall. }
      split; [constructor|]. unfold wireTrace. cbn. by rewrite app_nil_r.
    + right. exists st. by rewrite Ecall.
Qed.

End WireOrchestrator.

Lemma httpReq_returns_unless_httpSetup_witness :
  (∃ first rest,
     (length rest <= 7)%nat
     ∧ runOf (@Wire.httpSetup rateLimited 0 conn "GET" labelsURL "" false ∅)
             first
     ∧ Forall
         (runOf (@Wire.httpSetup rateLimited 0 conn "GET" labelsURL "" false
                   ∅)) rest
     ∧ wireTrace (@WireReq.httpReq rateLimited 8 0 conn "GET" labelsURL ""
                    false ∅ start) =
       [] ++ first ++ concat (map (cons (WSleep (30 * time_Second))) rest))
  ∧ ((∃ r, (@WireReq.httpReq rateLimited 8 0 conn "GET" labelsURL "" false ∅
              start).1 = Returned r)
     ∨ ∃ st0,
         (@Wire.httpSetup rateLimited 0 conn "GET" labelsURL "" false ∅
            st0).1 =
         (@WireReq.httpReq rateLimited 8 0 conn "GET" labelsURL "" false ∅
            start).1).
Proof.
  apply (@httpReq_returns_unless_httpSetup rateLimited 0 conn "GET" labelsURL
           "" false ∅ 8 start).
  lia.
Defined.

(** Against a transport that answers 429 to every exchange, the call gives
    up with the rate-limit error after eight exchanges and seven pauses; a
    job that is never done keeps [httpReq] from returning. *)
Example httpReq_wire_rate_limited :
  (@WireReq.httpReq rateLimited 8 0 conn "GET" labelsURL "" false ∅ start).1
  = Returned (APIResponse.mk "slow down" 429 [] "" [], rateLimitError)
  ∧ length (wireTrace (@WireReq.httpReq rateLimited 8 0 conn "GET" labelsURL
                         "" false ∅ start)) = 15%nat
  ∧ (@WireReq.httpReq jobRunning 8 40 conn "GET" labelsURL "" true ∅ start).1
    = OutOfFuel.
Proof. repeat split; vm_compute; reflexivity. Qed.

(** ** Verbose logging *)

(** X21.  Logging is switched on by an ILLUMIOAPI_VERBOSE that reads "true"
    in any letter case (for a value in ASCII: the four letters, each in
    either case), and by nothing else. *)
Theorem init_Verbose `{UnicodeTables} (getenv : string -> string) :
  isASCII (getenv "ILLUMIOAPI_VERBOSE") = true ->
  init getenv = true
  ↔ sameUpToCaseASCII (getenv "ILLUMIOAPI_VERBOSE") "true".
Proof.
  intros Hascii. unfold init.
  rewrite <- (equalUpToCase_ASCII _ "true" Hascii eq_refl).
  unfold equalUpToCase. change (strings_ToLower "true") with "true".
  destruct (String.eqb_spec (strings_ToLower (getenv "ILLUMIOAPI_VERBOSE"))
              "true"); split; congruence.
Qed.

Lemma init_Verbose_witness :
  @init noUnicode (fun _ => "True") = true
  ↔ sameUpToCaseASCII "True" "true".
Proof.
  apply (@init_Verbose noUnicode (fun _ => "True")). reflexivity.
Defined.
